(** * Advanced rate limiter: a shallow embedding of
      [bot/utils/advanced_rate_limiter.py] and the properties of its
      queueing, deduplication, retry and throttling logic.

    Modelling conventions.
    - [time.time()] readings are integers counting milliseconds, so the
      source's [1], [5], [30], [0.2] seconds read [1000], [5000], [30000]
      and [200].  Every clock reading is an explicit argument.
    - The limiter object is the record [limiter]; its dictionaries are
      [gmap]s, [defaultdict] accesses insert the default value as the
      source does, and methods that mutate it live in the state monad [M].
    - A coroutine is cut at its [await]s: each atomic segment between two
      suspension points is one function, and [_process_channel_queue]
      dispatches on the suspension point the worker is resumed from.
    - Python's [hash] is a parameter of the development. *)

From Stdlib Require Import ZArith String Ascii List Decimal DecimalString DecimalZ DecimalPos Sorted Lia.
From stdpp Require Import gmap strings list fin_maps.

Local Open Scope string_scope.
Local Open Scope list_scope.
Local Open Scope Z_scope.

(** ** Data model *)

Inductive MessagePriority := CRITICAL | HIGH | NORMAL | LOW.

Definition priority_value (p : MessagePriority) : Z :=
  match p with CRITICAL => 1 | HIGH => 2 | NORMAL => 3 | LOW => 4 end.

#[global] Instance MessagePriority_eq_dec : EqDecision MessagePriority.
Proof. solve_decision. Defined.

Definition priority_name (p : MessagePriority) : string :=
  match p with
  | CRITICAL => "CRITICAL" | HIGH => "HIGH" | NORMAL => "NORMAL" | LOW => "LOW"
  end.

(** The parts of [discord.Embed] the limiter reads. *)
Record EmbedFooter := { footer_text : option string }.

Record Embed := {
  embed_title : option string;
  embed_description : option string;
  embed_fields : list (string * string);
  embed_footer : option EmbedFooter }.

Record QueuedMessage := {
  channel_id : Z;
  embed : Embed;
  file : option string;
  content : option string;
  priority : MessagePriority;
  timestamp : Z;
  retry_count : Z;
  callback : option nat }.

Definition with_retry_count (m : QueuedMessage) (n : Z) : QueuedMessage :=
  {| channel_id := channel_id m; embed := embed m; file := file m;
     content := content m; priority := priority m; timestamp := timestamp m;
     retry_count := n; callback := callback m |}.

(** Constants set once in [__init__]. *)
Definition GLOBAL_RATE_LIMIT : nat := 50.
Definition CHANNEL_RATE_LIMIT : nat := 5.
Definition BURST_ALLOWANCE : nat := 5.
Definition MESSAGE_DELAY : Z := 200.
Definition dedup_window : Z := 30000.

(** The mutable attributes of [AdvancedRateLimiter].  The dictionaries
    [rate_limit_remaining] and [rate_limit_reset] are created in [__init__]
    and never read or written afterwards; they are left out. *)
Record limiter := Limiter {
  channel_queues : gmap Z (list QueuedMessage);
  channel_last_sent : gmap Z Z;
  channel_message_count : gmap Z (list Z);
  global_message_times : list Z;
  processing_channels : gset Z;
  global_rate_limit_reset : Z;
  recent_embeds : gmap Z (list string) }.

Definition init : limiter :=
  {| channel_queues := ∅; channel_last_sent := ∅; channel_message_count := ∅;
     global_message_times := []; processing_channels := ∅;
     global_rate_limit_reset := 0; recent_embeds := ∅ |}.

Definition set_channel_queues (v : gmap Z (list QueuedMessage)) (s : limiter) :=
  Limiter v (channel_last_sent s) (channel_message_count s)
    (global_message_times s) (processing_channels s)
    (global_rate_limit_reset s) (recent_embeds s).
Definition set_channel_last_sent (v : gmap Z Z) (s : limiter) :=
  Limiter (channel_queues s) v (channel_message_count s)
    (global_message_times s) (processing_channels s)
    (global_rate_limit_reset s) (recent_embeds s).
Definition set_channel_message_count (v : gmap Z (list Z)) (s : limiter) :=
  Limiter (channel_queues s) (channel_last_sent s) v
    (global_message_times s) (processing_channels s)
    (global_rate_limit_reset s) (recent_embeds s).
Definition set_global_message_times (v : list Z) (s : limiter) :=
  Limiter (channel_queues s) (channel_last_sent s) (channel_message_count s)
    v (processing_channels s) (global_rate_limit_reset s) (recent_embeds s).
Definition set_processing_channels (v : gset Z) (s : limiter) :=
  Limiter (channel_queues s) (channel_last_sent s) (channel_message_count s)
    (global_message_times s) v (global_rate_limit_reset s) (recent_embeds s).
Definition set_global_rate_limit_reset (v : Z) (s : limiter) :=
  Limiter (channel_queues s) (channel_last_sent s) (channel_message_count s)
    (global_message_times s) (processing_channels s) v (recent_embeds s).
Definition set_recent_embeds (v : gmap Z (list string)) (s : limiter) :=
  Limiter (channel_queues s) (channel_last_sent s) (channel_message_count s)
    (global_message_times s) (processing_channels s)
    (global_rate_limit_reset s) v.

(** ** The state monad of the limiter's methods *)

Definition M (A : Type) : Type := limiter -> A * limiter.

Definition ret {A} (a : A) : M A := fun s => (a, s).
Definition bind {A B} (c : M A) (k : A -> M B) : M B :=
  fun s => let (a, s') := c s in k a s'.
Definition gets {A} (f : limiter -> A) : M A := fun s => (f s, s).
Definition modify (f : limiter -> limiter) : M unit := fun s => (tt, f s).

Notation "x <- c ;; k" := (bind c (fun x => k))
  (at level 100, c at next level, right associativity).
Notation "c ;;; k" := (bind c (fun _ => k))
  (at level 100, right associativity).

(** [d[k]] on a [defaultdict(list)]: a missing key is inserted with the
    empty list before the value is returned. *)
Definition dd_get {V} (m : gmap Z (list V)) (k : Z) : list V * gmap Z (list V) :=
  match m !! k with
  | Some v => (v, m)
  | None => ([], <[k := []]> m)
  end.

(** [deque(maxlen=n).append(x)]: a full deque drops its leftmost item. *)
Definition deque_append (maxlen : nat) (d : list Z) (x : Z) : list Z :=
  if (maxlen <=? length d)%nat then tail d ++ [x] else d ++ [x].

(** ** Strings: [str], [split] and [float] on the dedup entries *)

(** [str(n)] for an integer. *)
Definition str (z : Z) : string := NilZero.string_of_int (Z.to_int z).

(** [s.split(sep)[0]]: the part of [s] before the first separator. *)
Fixpoint split_head (sep : ascii) (s : string) : string :=
  match s with
  | EmptyString => EmptyString
  | String c r => if Ascii.eqb c sep then EmptyString else String c (split_head sep r)
  end.

(** [float(s)] on a clock reading; [None] is [ValueError]. *)
Definition float_of_string (s : string) : option Z :=
  Z.of_int <$> NilZero.int_of_string s.

(** [f"{current_time}_{embed_hash}"]; a clock reading prints as its
    count of milliseconds. *)
Definition dedup_entry (current_time : Z) (embed_hash : string) : string :=
  String.append (str current_time) (String.append "_" embed_hash).

(** The list comprehension of [queue_message] that drops old hashes; it
    raises as soon as one entry's prefix is not a number. *)
Fixpoint remove_old_hashes (current_time : Z) (l : list string) : option (list string) :=
  match l with
  | [] => Some []
  | h :: r =>
      match float_of_string (split_head "_" h) with
      | None => None
      | Some t =>
          match remove_old_hashes current_time r with
          | None => None
          | Some r' =>
              Some (if bool_decide (current_time - t < dedup_window) then h :: r' else r')
          end
      end
  end.

(** [x in l] on a list of strings. *)
Definition str_in (x : string) (l : list string) : bool :=
  existsb (String.eqb x) l.

(** The priority scan of [queue_message]: insert before the first queued
    message with a numerically greater priority, append when there is none. *)
Fixpoint insert_by_priority (message : QueuedMessage) (queue : list QueuedMessage)
  : list QueuedMessage :=
  match queue with
  | [] => [message]
  | existing :: rest =>
      if bool_decide (priority_value (priority message) < priority_value (priority existing))
      then message :: existing :: rest
      else existing :: insert_by_priority message rest
  end.

(** ** Rate governor *)

(** The [while d and current_time - d[0] > width: d.popleft()] loops. *)
Fixpoint purge_window (current_time width : Z) (d : list Z) : list Z :=
  match d with
  | [] => []
  | t :: r =>
      if bool_decide (current_time - t > width)
      then purge_window current_time width r
      else t :: r
  end.

Definition _is_globally_rate_limited (current_time : Z) : M bool :=
  times <- gets global_message_times ;;
  let times' := purge_window current_time 1000 times in
  modify (set_global_message_times times') ;;;
  if (GLOBAL_RATE_LIMIT <=? length times')%nat then ret true
  else
    reset <- gets global_rate_limit_reset ;;
    if bool_decide (current_time < reset) then ret true else ret false.

Definition _can_send_to_channel (ch : Z) (current_time : Z) : M bool :=
  cmc <- gets channel_message_count ;;
  let (channel_times, cmc1) := dd_get cmc ch in
  let channel_times' := purge_window current_time 5000 channel_times in
  modify (set_channel_message_count (<[ch := channel_times']> cmc1)) ;;;
  if (CHANNEL_RATE_LIMIT <=? length channel_times')%nat then ret false
  else
    cls <- gets channel_last_sent ;;
    let last_sent := default 0 (cls !! ch) in
    if bool_decide (current_time - last_sent < MESSAGE_DELAY) then ret false
    else ret true.

(** ** Delivery worker: [_process_channel_queue] and [_send_message] *)

(** How [await channel.send(...)] ends: normally, with an HTTP 429 whose
    [retry_after] attribute may be missing and whose text may contain
    "global", with another [discord.HTTPException], or with any other
    exception. *)
Inductive send_result :=
| Sent
| RateLimited (retry_after : option Z) (is_global : bool)
| HTTPError
| SendException.

(** What the event loop hands to a resumed worker: the next clock reading,
    whether [bot.get_channel] finds the channel, and the outcome of the
    awaited send. *)
Record env := { now : Z; channel_found : bool; result : send_result }.

(** Suspension points of a worker task. *)
Inductive worker_pc :=
| WStart
| WSend (message : QueuedMessage) (current_time : Z)
| WRetryAfter (message : QueuedMessage) (current_time : Z)
| WCallback (message : QueuedMessage)
| WDelay
| WDone.

(** Observable actions of a segment: sends handed to the transport,
    completed deliveries, callbacks and log lines. *)
Inductive action :=
| ActSend (ch : Z) (message : QueuedMessage) (current_time : Z)
| ActDelivered (ch : Z) (message : QueuedMessage)
| ActCallback (cb : nat)
| LogChannelNotFound (ch : Z)
| LogGlobalRateLimit (retry_after : Z)
| LogChannelRateLimit (retry_after : Z)
| LogSendError
| LogRetriesExhausted (message : QueuedMessage).

Definition queue_of (s : limiter) (ch : Z) : list QueuedMessage :=
  default [] (channel_queues s !! ch).

Definition set_queue (ch : Z) (q : list QueuedMessage) (s : limiter) : limiter :=
  set_channel_queues (<[ch := q]> (channel_queues s)) s.

(** [finally: self.processing_channels.discard(channel_id)]. *)
Definition release (ch : Z) : M unit :=
  modify (fun s => set_processing_channels (processing_channels s ∖ {[ch]}) s).

(** One evaluation of the [while queue:] header and of the body up to
    [await channel.send]. *)
Definition loop_head (ch : Z) (current_time : Z) : M (worker_pc * list action) :=
  queue <- gets (fun s => queue_of s ch) ;;
  match queue with
  | [] => release ch ;;; ret (WDone, [])
  | message :: rest =>
      can <- _can_send_to_channel ch current_time ;;
      if negb can then release ch ;;; ret (WDone, [])
      else
        limited <- _is_globally_rate_limited current_time ;;
        if limited then release ch ;;; ret (WDone, [])
        else
          modify (set_queue ch rest) ;;;
          ret (WSend message current_time, [ActSend ch message current_time])
  end.

(** From the start of [_process_channel_queue] to its first [await].
    Both branches after [get_channel] index [self.channel_queues], which
    creates a missing key. *)
Definition worker_enter (ch : Z) (found : bool) (current_time : Z)
  : M (worker_pc * list action) :=
  pcs <- gets processing_channels ;;
  if bool_decide (ch ∈ pcs) then ret (WDone, [])
  else
    modify (set_processing_channels ({[ch]} ∪ pcs)) ;;;
    cq <- gets channel_queues ;;
    let (_, cq1) := dd_get cq ch in
    modify (set_channel_queues cq1) ;;;
    if negb found then
      modify (set_queue ch []) ;;;
      release ch ;;;
      ret (WDone, [LogChannelNotFound ch])
    else loop_head ch current_time.

(** The [else] branch after a failed send. *)
Definition handle_failure (ch : Z) (message : QueuedMessage)
  : M (worker_pc * list action) :=
  let message' := with_retry_count message (retry_count message + 1) in
  if bool_decide (retry_count message' < 3) then
    queue <- gets (fun s => queue_of s ch) ;;
    modify (set_queue ch (message' :: queue)) ;;;
    ret (WDelay, [])
  else ret (WDelay, [LogRetriesExhausted message']).

(** The [if success:] branch up to its next [await]. *)
Definition record_success (ch : Z) (message : QueuedMessage) (current_time : Z)
  : M (worker_pc * list action) :=
  modify (fun s => set_global_message_times
            (deque_append GLOBAL_RATE_LIMIT (global_message_times s) current_time) s) ;;;
  cmc <- gets channel_message_count ;;
  let (times, cmc1) := dd_get cmc ch in
  modify (set_channel_message_count
            (<[ch := deque_append CHANNEL_RATE_LIMIT times current_time]> cmc1)) ;;;
  modify (fun s => set_channel_last_sent (<[ch := current_time]> (channel_last_sent s)) s) ;;;
  match callback message with
  | Some cb => ret (WCallback message, [ActDelivered ch message; ActCallback cb])
  | None => ret (WDelay, [ActDelivered ch message])
  end.

(** How a resumed [_send_message] leaves its caller: it returns a
    boolean, or it suspends again in [asyncio.sleep(retry_after)] and
    returns [False] afterwards. *)
Inductive send_status := Returned (success : bool) | Sleeping (retry_after : Z).

(** [_send_message] resumed from [await channel.send] with outcome [res];
    [clock] is the [time.time()] read by the 429 handler. *)
Definition _send_message (res : send_result) (clock : Z)
  : M (send_status * list action) :=
  match res with
  | Sent => ret (Returned true, [])
  | RateLimited ra is_global =>
      let retry_after := default 1000 ra in
      if is_global then
        modify (set_global_rate_limit_reset (clock + retry_after)) ;;;
        ret (Sleeping retry_after, [LogGlobalRateLimit retry_after])
      else ret (Sleeping retry_after, [LogChannelRateLimit retry_after])
  | HTTPError | SendException => ret (Returned false, [LogSendError])
  end.

(** The worker resumed from [await self._send_message(channel, message)],
    up to its next [await]. *)
Definition on_send_result (ch : Z) (message : QueuedMessage) (current_time : Z)
    (res : send_result) (clock : Z) : M (worker_pc * list action) :=
  r <- _send_message res clock ;;
  match r.1 with
  | Returned true =>
      r' <- record_success ch message current_time ;; ret (r'.1, r.2 ++ r'.2)
  | Returned false =>
      r' <- handle_failure ch message ;; ret (r'.1, r.2 ++ r'.2)
  | Sleeping _ => ret (WRetryAfter message current_time, r.2)
  end.

(** [_process_channel_queue] resumed at suspension point [pc]. *)
Definition _process_channel_queue (ch : Z) (pc : worker_pc) (inp : env)
  : M (worker_pc * list action) :=
  match pc with
  | WStart => worker_enter ch (channel_found inp) (now inp)
  | WSend message current_time =>
      on_send_result ch message current_time (result inp) (now inp)
  | WRetryAfter message _ => handle_failure ch message
  | WCallback _ => ret (WDelay, [])
  | WDelay => loop_head ch (now inp)
  | WDone => ret (WDone, [])
  end.

(** A worker holds its channel's claim from [processing_channels.add] to
    the [finally] clause. *)
Definition holding (pc : worker_pc) : bool :=
  match pc with
  | WSend _ _ | WRetryAfter _ _ | WCallback _ | WDelay => true
  | WStart | WDone => false
  end.

(** [asyncio.CancelledError] delivered at a suspension point inside the
    [try]: the [finally] clause releases the claim. *)
Definition worker_cancel (ch : Z) (pc : worker_pc) : M worker_pc :=
  if holding pc then release ch ;;; ret WDone else ret WDone.

(** A worker run alone, resumed once per element of [inputs]. *)
Fixpoint worker_run (inputs : list env) (ch : Z) (pc : worker_pc)
  : M (worker_pc * list action) :=
  match inputs with
  | [] => ret (pc, [])
  | inp :: inputs' =>
      match pc with
      | WDone => ret (WDone, [])
      | _ =>
          r <- _process_channel_queue ch pc inp ;;
          r' <- worker_run inputs' ch r.1 ;;
          ret (r'.1, r.2 ++ r'.2)
      end
  end.

(** ** Dispatcher: one cycle of [_process_queues] and [flush_all_queues] *)

(** The body of [for channel_id in list(self.channel_queues.keys())].  The
    keys are visited in the map's order rather than the dictionary's
    insertion order; each iteration touches its own channel's window only. *)

Fixpoint scan_channels (keys : list Z) (current_time : Z) : M (list Z) :=
  match keys with
  | [] => ret []
  | ch :: keys' =>
      queue <- gets (fun s => queue_of s ch) ;;
      pcs <- gets processing_channels ;;
      match queue with
      | [] => scan_channels keys' current_time
      | _ :: _ =>
          if bool_decide (ch ∈ pcs) then scan_channels keys' current_time
          else
            can <- _can_send_to_channel ch current_time ;;
            started <- scan_channels keys' current_time ;;
            ret (if can then ch :: started else started)
      end
  end.

(** The channels for which a worker task is created, and the sleep that
    ends the cycle. *)
Definition _process_queues (current_time : Z) : M (list Z * Z) :=
  limited <- _is_globally_rate_limited current_time ;;
  if limited then ret ([], 100)
  else
    cq <- gets channel_queues ;;
    started <- scan_channels (map_to_list cq).*1 current_time ;;
    match started with
    | [] => ret ([], 100)
    | _ :: _ => ret (started, 50)
    end.

Definition flush_all_queues : M (list Z) :=
  cq <- gets channel_queues ;;
  pcs <- gets processing_channels ;;
  ret (filter (fun ch => default [] (cq !! ch) ≠ [] ∧ (ch ∉ pcs)) (map_to_list cq).*1).

(** ** Statistics *)

(** The dictionary returned by [get_queue_stats]; its ['processing_channels']
    entry is [stat_processing_channels]. *)
Record stats := {
  total_queued : nat;
  active_channels : nat;
  stat_processing_channels : nat;
  priority_breakdown : gmap string nat;
  global_rate_limit_active : bool;
  recent_global_messages : nat }.

Definition count_priority (counts : gmap string nat) (message : QueuedMessage)
  : gmap string nat :=
  let name := priority_name (priority message) in
  <[name := S (default 0%nat (counts !! name))]> counts.

Definition get_queue_stats (clock : Z) : M stats :=
  cq <- gets channel_queues ;;
  let queues := (map_to_list cq).*2 in
  let total := foldr (fun q n => (length q + n)%nat) 0%nat queues in
  let priority_counts :=
    foldl (fun counts q => foldl count_priority counts q) ∅ queues in
  pcs <- gets processing_channels ;;
  reset <- gets global_rate_limit_reset ;;
  times <- gets global_message_times ;;
  ret {| total_queued := total;
         active_channels :=
           length (filter (fun q : list QueuedMessage => q ≠ []) queues);
         stat_processing_channels := size pcs;
         priority_breakdown := priority_counts;
         global_rate_limit_active := bool_decide (clock < reset);
         recent_global_messages := length times |}.

(** Whether a string contains the separator of the dedup entries. *)
Fixpoint has_sep (s : string) : bool :=
  match s with
  | EmptyString => false
  | String c r => if Ascii.eqb c "_" then true else has_sep r
  end.

(** Shape of the strings [queue_message] stores in [recent_embeds]. *)
Definition is_dedup_entry (h : string) : Prop :=
  ∃ t embed_hash, h = dedup_entry t embed_hash.

Definition dedup_wf (s : limiter) : Prop :=
  ∀ ch l, recent_embeds s !! ch = Some l → Forall is_dedup_entry l.

Inductive queue_outcome := Queued | Duplicate | QueueFailed.

Section Limiter.

(** Python's built-in [hash] on strings. *)
Variable py_hash : string -> Z.

(** [_generate_embed_hash]; [now] is the clock read by the fallback.
    Joining raises when the footer is set without a text. *)
Definition hash_parts (e : Embed) : option (list string) :=
  match embed_footer e with
  | None =>
      Some [default "" (embed_title e); default "" (embed_description e);
            str (Z.of_nat (length (embed_fields e))); ""]
  | Some f =>
      match footer_text f with
      | Some t =>
          Some [default "" (embed_title e); default "" (embed_description e);
                str (Z.of_nat (length (embed_fields e))); t]
      | None => None
      end
  end.

Definition _generate_embed_hash (e : Embed) (now : Z) : string :=
  match hash_parts e with
  | Some parts => str (py_hash (String.concat "_" parts))
  | None => str now
  end.

(** [queue_message].  [hash_clock] is the clock of the hash fallback,
    [current_time] the [time.time()] of the dedup purge and [now_utc] the
    [datetime.now] stored in the message. *)
Definition queue_message (ch : Z) (e : Embed) (f : option string)
    (c : option string) (p : MessagePriority) (cb : option nat)
    (hash_clock current_time now_utc : Z) : M queue_outcome :=
  let embed_hash := _generate_embed_hash e hash_clock in
  re <- gets recent_embeds ;;
  let (channel_recent, re1) := dd_get re ch in
  modify (set_recent_embeds re1) ;;;
  match remove_old_hashes current_time channel_recent with
  | None => ret QueueFailed
  | Some kept =>
      modify (set_recent_embeds (<[ch := kept]> re1)) ;;;
      if str_in embed_hash kept then ret Duplicate
      else
        modify (set_recent_embeds
                  (<[ch := kept ++ [dedup_entry current_time embed_hash]]> re1)) ;;;
        let message :=
          {| channel_id := ch; embed := e; file := f; content := c;
             priority := p; timestamp := now_utc; retry_count := 0;
             callback := cb |} in
        cq <- gets channel_queues ;;
        let (queue, cq1) := dd_get cq ch in
        modify (set_channel_queues (<[ch := insert_by_priority message queue]> cq1)) ;;;
        ret Queued
  end.

(** ** The event loop: submissions, dispatcher cycles and worker tasks *)

Record submission := {
  sub_channel : Z;
  sub_embed : Embed;
  sub_file : option string;
  sub_content : option string;
  sub_priority : MessagePriority;
  sub_callback : option nat;
  sub_hash_clock : Z;
  sub_time : Z;
  sub_utc : Z }.

Definition submit (x : submission) : M queue_outcome :=
  queue_message (sub_channel x) (sub_embed x) (sub_file x) (sub_content x)
    (sub_priority x) (sub_callback x) (sub_hash_clock x) (sub_time x) (sub_utc x).

(** The limiter together with the worker tasks created so far, each with
    its channel and the suspension point it waits at. *)
Record system := { lim : limiter; tasks : list (Z * worker_pc) }.

Definition sys_init : system := {| lim := init; tasks := [] |}.

Inductive event :=
| EvSubmit (x : submission)
| EvDispatch (clock : Z)
| EvFlush
| EvResume (i : nat) (inp : env)
| EvCancel (i : nat)
| EvStats (clock : Z).

Definition spawn (chs : list Z) : list (Z * worker_pc) :=
  map (fun ch => (ch, WStart)) chs.

(** One atomic step of the event loop. *)
Definition sys_exec (ev : event) (σ : system) : system * list action :=
  match ev with
  | EvSubmit x =>
      let (_, l) := submit x (lim σ) in ({| lim := l; tasks := tasks σ |}, [])
  | EvDispatch clock =>
      let (r, l) := _process_queues clock (lim σ) in
      ({| lim := l; tasks := tasks σ ++ spawn r.1 |}, [])
  | EvFlush =>
      let (r, l) := flush_all_queues (lim σ) in
      ({| lim := l; tasks := tasks σ ++ spawn r |}, [])
  | EvResume i inp =>
      match tasks σ !! i with
      | Some (ch, pc) =>
          let (r, l) := _process_channel_queue ch pc inp (lim σ) in
          ({| lim := l; tasks := <[i := (ch, r.1)]> (tasks σ) |}, r.2)
      | None => (σ, [])
      end
  | EvCancel i =>
      match tasks σ !! i with
      | Some (ch, pc) =>
          let (pc', l) := worker_cancel ch pc (lim σ) in
          ({| lim := l; tasks := <[i := (ch, pc')]> (tasks σ) |}, [])
      | None => (σ, [])
      end
  | EvStats clock =>
      let (_, l) := get_queue_stats clock (lim σ) in
      ({| lim := l; tasks := tasks σ |}, [])
  end.

Fixpoint sys_run (evs : list event) (σ : system) : system * list action :=
  match evs with
  | [] => (σ, [])
  | ev :: evs' =>
      let (σ1, a1) := sys_exec ev σ in
      let (σ2, a2) := sys_run evs' σ1 in
      (σ2, a1 ++ a2)
  end.

Definition message_of (x : submission) : QueuedMessage :=
  {| channel_id := sub_channel x; embed := sub_embed x; file := sub_file x;
     content := sub_content x; priority := sub_priority x;
     timestamp := sub_utc x; retry_count := 0; callback := sub_callback x |}.

(** A producer's calls to [queue_message], one after the other. *)
Fixpoint submit_all (xs : list submission) : M unit :=
  match xs with
  | [] => ret tt
  | x :: xs' => submit x ;;; submit_all xs'
  end.

(** Urgency order of two queued messages: the first is at least as urgent. *)
Definition at_least_as_urgent (a b : QueuedMessage) : Prop :=
  priority_value (priority a) <= priority_value (priority b).

(** The messages of one priority tier, in queue order. *)
Definition tier (p : MessagePriority) (q : list QueuedMessage) : list QueuedMessage :=
  filter (fun m => priority m = p) q.

(** Task [i] is a worker of channel [ch] that holds the channel's claim. *)
Definition holds_claim (σ : system) (i : nat) (ch : Z) : Prop :=
  ∃ pc, tasks σ !! i = Some (ch, pc) ∧ holding pc = true.

(** At most one holder per channel, and a held channel is in the
    processing set. *)
Definition claims_wf (σ : system) : Prop :=
  (∀ i j ch, holds_claim σ i ch → holds_claim σ j ch → i = j) ∧
  (∀ i ch, holds_claim σ i ch → ch ∈ processing_channels (lim σ)).

End Limiter.

(** ** Resumptions, eligibility and retry bookkeeping *)

(** A resumption that reads clock [t] and finds the channel. *)
Definition wake (t : Z) : env :=
  {| now := t; channel_found := true; result := Sent |}.

(** A resumption from [await channel.send] with outcome [r]; [t] is the
    clock the 429 handler would read. *)
Definition answer (r : send_result) (t : Z) : env :=
  {| now := t; channel_found := true; result := r |}.

(** Failures other than a 429. *)
Definition transient (r : send_result) : Prop :=
  r = HTTPError ∨ r = SendException.

(** Sufficient conditions for both governor checks to pass at clock [t]. *)
Definition quiet (ch : Z) (t : Z) (s : limiter) : Prop :=
  (length (global_message_times s) < GLOBAL_RATE_LIMIT)%nat ∧
  (length (default [] (channel_message_count s !! ch)) < CHANNEL_RATE_LIMIT)%nat ∧
  global_rate_limit_reset s <= t ∧
  default 0 (channel_last_sent s !! ch) + MESSAGE_DELAY <= t.

(** The message a suspended worker has taken out of the queue. *)
Definition in_flight (pc : worker_pc) : option QueuedMessage :=
  match pc with
  | WSend m _ | WRetryAfter m _ => Some m
  | _ => None
  end.

Definition retries_ok (m : QueuedMessage) : Prop := 0 <= retry_count m < 3.

Definition queues_ok (s : limiter) : Prop :=
  ∀ ch q, channel_queues s !! ch = Some q → Forall retries_ok q.

(** Every queued or in-flight message has failed fewer than 3 times. *)
Definition retries_wf (σ : system) : Prop :=
  queues_ok (lim σ) ∧
  (∀ i ch pc m, tasks σ !! i = Some (ch, pc) → in_flight pc = Some m → retries_ok m).

(** ** Specified behaviour the code departs from, in the specification's words *)




(** Idempotence of [stats()] as specified: two consecutive calls return
    the same result. *)
Definition stats_idempotent_spec (t1 t2 : Z) (s : limiter) : Prop :=
  let r1 := get_queue_stats t1 s in
  (get_queue_stats t2 r1.2).1 = r1.1.

(** ** Example inputs *)

Definition example_hash (s : string) : Z := Z.of_nat (String.length s).

Definition example_embed : Embed :=
  {| embed_title := Some "Player killed"; embed_description := Some "A killed B";
     embed_fields := [("Weapon", "M4")];
     embed_footer := Some {| footer_text := Some "Server 1" |} |}.

Definition example_message (p : MessagePriority) (retries : Z) : QueuedMessage :=
  {| channel_id := 7; embed := example_embed; file := None; content := None;
     priority := p; timestamp := 1000; retry_count := retries; callback := None |}.

Definition example_submission (p : MessagePriority) (t : Z) : submission :=
  {| sub_channel := 7; sub_embed := example_embed; sub_file := None;
     sub_content := None; sub_priority := p; sub_callback := None;
     sub_hash_clock := t; sub_time := t; sub_utc := t |}.

(** A limiter whose only pending state is a global deadline at 10 s. *)
Definition example_throttled : limiter := set_global_rate_limit_reset 10000 init.

(** A NORMAL message is submitted, the dispatcher starts the channel's
    worker, the worker hands the message to the transport, and a CRITICAL
    message arrives while the send is awaited. *)
Definition example_events : list event :=
  [EvSubmit (example_submission NORMAL 500); EvDispatch 1000;
   EvResume 0 (wake 1000); EvSubmit (example_submission CRITICAL 1500)].

Definition example_interleaved : system :=
  (sys_run example_hash example_events sys_init).1.

(** The same embed submitted three times with different priorities. *)
Definition example_submissions : list submission :=
  [example_submission CRITICAL 1000; example_submission LOW 2000;
   example_submission NORMAL 3000].

(** ** Predicates for the further properties *)

(** Both sliding windows, purged at clock [t], have room and the channel's
    last send is at least [MESSAGE_DELAY] old. *)
Definition within_limits (ch : Z) (t : Z) (s : limiter) : Prop :=
  (length (purge_window t 5000 (default [] (channel_message_count s !! ch)))
     < CHANNEL_RATE_LIMIT)%nat ∧
  default 0 (channel_last_sent s !! ch) + MESSAGE_DELAY <= t ∧
  (length (purge_window t 1000 (global_message_times s)) < GLOBAL_RATE_LIMIT)%nat.


(** The processing set holds no channel without a worker that claims it. *)
Definition claims_exact (σ : system) : Prop :=
  ∀ ch, ch ∈ processing_channels (lim σ) → ∃ i, holds_claim σ i ch.

(** No window holds more timestamps than its [maxlen]. *)
Definition windows_bounded (s : limiter) : Prop :=
  (length (global_message_times s) ≤ GLOBAL_RATE_LIMIT)%nat ∧
  ∀ ch w, channel_message_count s !! ch = Some w → (length w ≤ CHANNEL_RATE_LIMIT)%nat.

(** [s'] differs from [s] at most in the entries of channel [ch] and in
    the global window and deadline. *)
Definition agree_off (ch : Z) (s s' : limiter) : Prop :=
  recent_embeds s' = recent_embeds s ∧
  ∀ k, k ≠ ch →
    channel_queues s' !! k = channel_queues s !! k ∧
    channel_message_count s' !! k = channel_message_count s !! k ∧
    channel_last_sent s' !! k = channel_last_sent s !! k ∧
    (k ∈ processing_channels s' ↔ k ∈ processing_channels s).


(** The interleaved example just before the worker's first resumption. *)
Definition example_dispatched : system :=
  (sys_run example_hash
     [EvSubmit (example_submission NORMAL 500); EvDispatch 1000] sys_init).1.


(** The channel's window is below its [maxlen]. *)
Definition has_room (ch : Z) (s : limiter) : Prop :=
  (length (default [] (channel_message_count s !! ch)) < CHANNEL_RATE_LIMIT)%nat.

(** Every channel with a message in flight has room in its window. *)
Definition sending_has_room (σ : system) : Prop :=
  ∀ i ch pc, tasks σ !! i = Some (ch, pc) → is_Some (in_flight pc) →
             has_room ch (lim σ).



(** What [_generate_embed_hash] reads of an embed: the title and the
    description with [None] read as the empty string, the number of fields,
    and the footer text, which is empty without a footer and missing
    ([None]) when the footer has no text. *)
Definition stable_fields (e : Embed) : string * string * nat * option string :=
  (default "" (embed_title e), default "" (embed_description e),
   length (embed_fields e),
   match embed_footer e with
   | None => Some ""
   | Some f => footer_text f
   end).


(** All queued messages of the limiter, queue after queue. *)
Definition all_queued (s : limiter) : list QueuedMessage :=
  concat (map_to_list (channel_queues s)).*2.

Definition all_priorities : list MessagePriority := [CRITICAL; HIGH; NORMAL; LOW].

(** ** Retry budget *)

(** The send attempts a message may still be given: three, less the
    failures counted so far. *)
Definition attempts_left (m : QueuedMessage) : nat := Z.to_nat (3 - retry_count m).

Definition is_send_to (ch : Z) (a : action) : bool :=
  match a with ActSend c _ _ => bool_decide (c = ch) | _ => false end.

(** The number of [channel.send] calls for channel [ch] in a trace. *)
Definition count_sends (ch : Z) (acts : list action) : nat :=
  sum_list_with (fun a => if is_send_to ch a then 1%nat else 0%nat) acts.

Definition is_submit_to (ch : Z) (ev : event) : bool :=
  match ev with EvSubmit x => bool_decide (sub_channel x = ch) | _ => false end.

(** The number of [queue_message] calls for channel [ch] in a schedule. *)
Definition count_submits (ch : Z) (evs : list event) : nat :=
  sum_list_with (fun ev => if is_submit_to ch ev then 1%nat else 0%nat) evs.

(** The attempts left to the message a suspended worker holds, the one
    under way not counted. *)
Definition inflight_budget (pc : worker_pc) : nat :=
  match in_flight pc with
  | Some m => (attempts_left m - 1)%nat
  | None => 0%nat
  end.

Definition task_budget (ch : Z) (task : Z * worker_pc) : nat :=
  if bool_decide (task.1 = ch) then inflight_budget task.2 else 0%nat.

(** The attempts left to channel [ch]: those of its queued messages and
    those of the messages its workers hold. *)
Definition send_budget (ch : Z) (σ : system) : nat :=
  (sum_list_with attempts_left (queue_of (lim σ) ch) +
   sum_list_with (task_budget ch) (tasks σ))%nat.

(** ** Draining a queue *)

(** Both windows have room for [n] more sends, and the deadline and the
    per-channel delay have passed at clock [t]. *)
Definition room_for (n : nat) (ch : Z) (t : Z) (s : limiter) : Prop :=
  (length (global_message_times s) + n ≤ GLOBAL_RATE_LIMIT)%nat ∧
  (length (default [] (channel_message_count s !! ch)) + n ≤ CHANNEL_RATE_LIMIT)%nat ∧
  global_rate_limit_reset s <= t ∧
  default 0 (channel_last_sent s !! ch) + MESSAGE_DELAY <= t.

(** Successive clock readings at least [MESSAGE_DELAY] apart. *)
Fixpoint spaced (ts : list Z) : Prop :=
  match ts with
  | t :: (t' :: _) as r => t + MESSAGE_DELAY <= t' ∧ spaced r
  | _ => True
  end.

(** A message's callback, when it has one. *)
Definition callback_actions (m : QueuedMessage) : list action :=
  match callback m with Some cb => [ActCallback cb] | None => [] end.

(** The resumptions of a worker whose sends all succeed: for each message
    the loop header at its clock, the accepted send, and the return of the
    callback when there is one. *)
Fixpoint delivery_inputs (q : list QueuedMessage) (ts : list Z) : list env :=
  match q, ts with
  | m :: q', t :: ts' =>
      wake t :: answer Sent t ::
        match callback m with Some _ => [wake t] | None => [] end ++
        delivery_inputs q' ts'
  | _, _ => []
  end.

Fixpoint delivery_trace (ch : Z) (q : list QueuedMessage) (ts : list Z) : list action :=
  match q, ts with
  | m :: q', t :: ts' =>
      ActSend ch m t :: ActDelivered ch m :: callback_actions m ++
        delivery_trace ch q' ts'
  | _, _ => []
  end.

(** ** The scenario of a global 429 *)

Definition example_submission_8 : submission :=
  {| sub_channel := 8; sub_embed := example_embed; sub_file := None;
     sub_content := None; sub_priority := NORMAL; sub_callback := None;
     sub_hash_clock := 1050; sub_time := 1050; sub_utc := 1050 |}.

(** A message for channel 7 is handed to the transport at 1 s, and a
    message for channel 8 is submitted while the send is awaited. *)
Definition example_awaiting : system :=
  (sys_run example_hash
     [EvSubmit (example_submission NORMAL 500); EvDispatch 1000;
      EvResume 0 (wake 1000); EvSubmit example_submission_8] sys_init).1.

(** The transport answers the send with a global 429 and a retry-after of
    2 s, which the handler reads at clock 1.1 s. *)
Definition example_global_429 : system :=
  (sys_exec example_hash (EvResume 0 (answer (RateLimited (Some 2000) true) 1100))
     example_awaiting).1.

Section Properties.

Variable py_hash : string -> Z.

#[local] Abbreviation _generate_embed_hash := (_generate_embed_hash py_hash).
#[local] Abbreviation queue_message := (queue_message py_hash).
#[local] Abbreviation submit := (submit py_hash).
#[local] Abbreviation submit_all := (submit_all py_hash).
#[local] Abbreviation sys_exec := (sys_exec py_hash).
#[local] Abbreviation sys_run := (sys_run py_hash).

(** ** Properties *)

(** *** Strings *)

Lemma has_sep_app a b : has_sep (String.append a b) = has_sep a || has_sep b.
Proof.
  induction a as [|c a IH]; simpl; [done|].
  destruct (Ascii.eqb c "_"); [done|apply IH].
Qed.

Lemma has_sep_uint d : has_sep (NilEmpty.string_of_uint d) = false.
Proof. induction d; simpl; auto. Qed.

Lemma has_sep_str z : has_sep (str z) = false.
Proof.
  unfold str, NilZero.string_of_int, NilZero.string_of_uint.
  destruct (Z.to_int z) as [d|d]; destruct d; simpl; auto using has_sep_uint.
Qed.

Lemma has_sep_dedup_entry t h : has_sep (dedup_entry t h) = true.
Proof.
  unfold dedup_entry. rewrite has_sep_app, has_sep_str. reflexivity.
Qed.

Lemma split_head_app a b :
  has_sep a = false → split_head "_" (String.append a (String "_" b)) = a.
Proof.
  induction a as [|c a IH]; simpl; [done|].
  destruct (Ascii.eqb c "_"); [done|]. intros H. by rewrite IH.
Qed.

Lemma to_int_nonnil z : Z.to_int z ≠ Pos Nil ∧ Z.to_int z ≠ Neg Nil.
Proof.
  destruct z as [|p|p]; simpl; split; try discriminate;
    intros [=H]; by apply (Unsigned.to_uint_nonnil p).
Qed.

Lemma float_of_string_str t : float_of_string (str t) = Some t.
Proof.
  unfold float_of_string, str.
  destruct (to_int_nonnil t) as [H1 H2].
  rewrite NilZero.isi by assumption. simpl. f_equal. apply DecimalZ.of_to.
Qed.

Lemma entry_time t h :
  float_of_string (split_head "_" (dedup_entry t h)) = Some t.
Proof.
  unfold dedup_entry. change (String.append "_" h) with (String "_" h).
  rewrite split_head_app by apply has_sep_str. apply float_of_string_str.
Qed.

(** *** Deduplication *)

Lemma remove_old_hashes_wf current_time l :
  Forall is_dedup_entry l →
  ∃ kept, remove_old_hashes current_time l = Some kept ∧ Forall is_dedup_entry kept.
Proof.
  induction 1 as [|h l [t [eh ->]] Hl [kept [IH Hk]]]; simpl.
  - eauto.
  - rewrite entry_time, IH. eexists; split; [reflexivity|].
    case_bool_decide; [constructor|]; unfold is_dedup_entry; eauto.
Qed.

Lemma str_in_entries x l :
  has_sep x = false → Forall is_dedup_entry l → str_in x l = false.
Proof.
  intros Hx. induction 1 as [|h l [t [eh ->]] Hl IH]; simpl; [done|].
  rewrite IH, orb_false_r. apply String.eqb_neq. intros ->.
  by rewrite has_sep_dedup_entry in Hx.
Qed.

Lemma has_sep_embed_hash e clock : has_sep (_generate_embed_hash e clock) = false.
Proof. unfold _generate_embed_hash. destruct (hash_parts e); apply has_sep_str. Qed.

Lemma dd_get_wf (m : gmap Z (list string)) ch :
  (∀ k l, m !! k = Some l → Forall is_dedup_entry l) →
  Forall is_dedup_entry (dd_get m ch).1 ∧
  (∀ k l, (dd_get m ch).2 !! k = Some l → Forall is_dedup_entry l).
Proof.
  intros Hm. unfold dd_get. destruct (m !! ch) as [v|] eqn:E; simpl.
  - eauto.
  - split; [constructor|]. intros k l. rewrite lookup_insert.
    case_decide; [intros [= <-]; constructor | apply Hm].
Qed.

Lemma dd_get_insert {V} (m : gmap Z (list V)) ch (x : list V) :
  <[ch := x]> (dd_get m ch).2 = <[ch := x]> m.
Proof.
  unfold dd_get. destruct (m !! ch); simpl; [done|]. apply insert_insert_eq.
Qed.

Lemma dd_get_default {V} (m : gmap Z (list V)) ch :
  (dd_get m ch).1 = default [] (m !! ch).
Proof. unfold dd_get. by destruct (m !! ch). Qed.

Lemma dd_get_lookup {V} (m : gmap Z (list V)) ch k :
  default [] ((dd_get m ch).2 !! k) = default [] (m !! k).
Proof.
  unfold dd_get. destruct (m !! ch) eqn:E; simpl; [done|].
  rewrite lookup_insert. case_decide; [by subst; rewrite E|done].
Qed.

(** On a limiter whose dedup entries have the shape [queue_message] gives
    them, the duplicate test never succeeds: every call queues. *)
Lemma queue_message_queued ch e f c p cb hc t u s :
  dedup_wf s →
  ∃ kept,
    remove_old_hashes t (default [] (recent_embeds s !! ch)) = Some kept ∧
    Forall is_dedup_entry kept ∧
    queue_message ch e f c p cb hc t u s =
      (Queued,
       set_channel_queues
         (<[ch := insert_by_priority
                    {| channel_id := ch; embed := e; file := f; content := c;
                       priority := p; timestamp := u; retry_count := 0;
                       callback := cb |} (queue_of s ch)]> (channel_queues s))
         (set_recent_embeds
            (<[ch := kept ++ [dedup_entry t (_generate_embed_hash e hc)]]>
               (recent_embeds s)) s)).
Proof.
  intros Hwf.
  destruct (dd_get_wf (recent_embeds s) ch Hwf) as [H1 _].
  destruct (remove_old_hashes_wf t _ H1) as [kept [Hk Hkept]].
  exists kept. rewrite <- dd_get_default. split; [done|]. split; [done|].
  unfold queue_message, bind, gets, modify, ret. simpl.
  destruct (dd_get (recent_embeds s) ch) as [recent re1] eqn:Ere.
  simpl in Hk. rewrite Hk.
  rewrite (str_in_entries _ _ (has_sep_embed_hash e hc) Hkept).
  simpl. destruct (dd_get (channel_queues s) ch) as [queue cq1] eqn:Ecq.
  simpl. f_equal. unfold set_channel_queues, set_recent_embeds; simpl.
  replace re1 with (dd_get (recent_embeds s) ch).2 by by rewrite Ere.
  replace cq1 with (dd_get (channel_queues s) ch).2 by by rewrite Ecq.
  replace queue with (dd_get (channel_queues s) ch).1 by by rewrite Ecq.
  rewrite !dd_get_insert, dd_get_default. reflexivity.
Qed.

Lemma queue_message_wf ch e f c p cb hc t u s :
  dedup_wf s → dedup_wf (queue_message ch e f c p cb hc t u s).2.
Proof.
  intros Hwf.
  destruct (queue_message_queued ch e f c p cb hc t u s Hwf) as [kept [_ [Hk ->]]].
  intros k l. simpl. rewrite lookup_insert. case_decide.
  - intros [= <-]. apply Forall_app. split; [done|].
    constructor; [|constructor]. unfold is_dedup_entry; eauto.
  - apply Hwf.
Qed.

Lemma dedup_wf_init : dedup_wf init.
Proof. intros ch l. simpl. by rewrite lookup_empty. Qed.

Lemma length_insert_by_priority m q :
  length (insert_by_priority m q) = S (length q).
Proof.
  induction q as [|x q IH]; simpl; [done|].
  case_bool_decide; simpl; by rewrite ?IH.
Qed.

(** C1 (the code departs from the claim): two submissions of the same
    embed to the same channel are both queued, whatever the time between
    them, in particular inside the 30 s dedup window.  The duplicate test
    compares the bare hash with entries of the form [time_hash], so it never
    matches and nothing is ever suppressed. *)
Theorem duplicate_within_window_is_queued ch e f c p cb hc1 t1 u1 hc2 t2 u2 s :
  dedup_wf s →
  0 <= t2 - t1 < dedup_window →
  let r1 := queue_message ch e f c p cb hc1 t1 u1 s in
  let r2 := queue_message ch e f c p cb hc2 t2 u2 r1.2 in
  r1.1 = Queued ∧ r2.1 = Queued ∧
  length (queue_of r2.2 ch) = S (S (length (queue_of s ch))).
Proof.
  intros Hwf _ r1 r2.
  destruct (queue_message_queued ch e f c p cb hc1 t1 u1 s Hwf) as [k1 [_ [_ E1]]].
  pose proof (queue_message_wf ch e f c p cb hc1 t1 u1 s Hwf) as Hwf1.
  destruct (queue_message_queued ch e f c p cb hc2 t2 u2 r1.2 Hwf1) as [k2 [_ [_ E2]]].
  subst r2. rewrite E2. subst r1. rewrite E1. simpl.
  split; [done|]. split; [done|].
  unfold queue_of at 1. simpl. rewrite lookup_insert_eq. simpl.
  rewrite length_insert_by_priority. f_equal.
  unfold queue_of at 1. simpl. rewrite lookup_insert_eq. simpl.
  by rewrite length_insert_by_priority.
Qed.

(** *** Priority insertion *)

Lemma Forall_insert_by_priority (P : QueuedMessage → Prop) m q :
  P m → Forall P q → Forall P (insert_by_priority m q).
Proof.
  intros Hm. induction 1 as [|x q Hx Hq IH]; simpl.
  - by repeat constructor.
  - case_bool_decide; repeat constructor; auto.
Qed.

Lemma insert_by_priority_sorted m q :
  StronglySorted at_least_as_urgent q →
  StronglySorted at_least_as_urgent (insert_by_priority m q).
Proof.
  induction 1 as [|x q Hq IH Hx]; simpl.
  - by repeat constructor.
  - case_bool_decide as Hlt.
    + constructor; [by constructor|]. constructor.
      * unfold at_least_as_urgent. lia.
      * eapply Forall_impl; [exact Hx|]. unfold at_least_as_urgent. simpl. lia.
    + constructor; [exact IH|].
      apply Forall_insert_by_priority; [unfold at_least_as_urgent; lia|exact Hx].
Qed.

Lemma insert_by_priority_position m q :
  ∃ i : nat,
    insert_by_priority m q = take i q ++ m :: drop i q ∧
    (∀ (j : nat) x, (j < i)%nat → q !! j = Some x →
       ¬ priority_value (priority m) < priority_value (priority x)) ∧
    (i = length q ∨
     ∃ x, q !! i = Some x ∧ priority_value (priority m) < priority_value (priority x)).
Proof.
  induction q as [|x q [i [E [Hbefore Hat]]]]; simpl.
  - exists 0%nat. split; [done|]. split; [intros; lia|by left].
  - case_bool_decide as Hlt.
    + exists 0%nat. split; [done|]. split; [intros; lia|right; eauto].
    + exists (S i). simpl. rewrite E. split; [done|]. split.
      * intros [|j] y Hj; simpl; [by intros [= <-]|]. apply Hbefore. lia.
      * destruct Hat as [->|Hat]; [by left|by right].
Qed.

Lemma tier_empty p q :
  Forall (fun y => priority y ≠ p) q → tier p q = [].
Proof.
  unfold tier. induction 1 as [|y q Hy Hq IH]; [done|].
  by rewrite filter_cons_False.
Qed.

Lemma tier_insert_by_priority p m q :
  StronglySorted at_least_as_urgent q →
  tier p (insert_by_priority m q) = tier p q ++ tier p [m].
Proof.
  unfold tier. induction 1 as [|x q Hq IH Hx]; simpl; [done|].
  case_bool_decide as Hlt.
  - rewrite !filter_cons, filter_nil.
    destruct (decide (priority m = p)) as [Hm|Hm]; [|by rewrite app_nil_r].
    destruct (decide (priority x = p)) as [Hxp|_]; [rewrite Hm, Hxp in Hlt; lia|].
    fold (tier p q). rewrite tier_empty; [done|].
    eapply Forall_impl; [exact Hx|]. unfold at_least_as_urgent. simpl.
    intros y Hy Hyp. rewrite Hm, <- Hyp in Hlt. lia.
  - rewrite !filter_cons, IH, filter_cons, filter_nil.
    by destruct (decide (priority x = p)).
Qed.

Lemma enqueue_all_sorted msgs q :
  StronglySorted at_least_as_urgent q →
  StronglySorted at_least_as_urgent
    (foldl (fun q m => insert_by_priority m q) q msgs).
Proof.
  revert q. induction msgs as [|m msgs IH]; simpl; [done|].
  intros q Hq. apply IH. by apply insert_by_priority_sorted.
Qed.

Lemma enqueue_all_tier p msgs q :
  StronglySorted at_least_as_urgent q →
  tier p (foldl (fun q m => insert_by_priority m q) q msgs) = tier p q ++ tier p msgs.
Proof.
  revert q. induction msgs as [|m msgs IH]; simpl; intros q Hq.
  - unfold tier. by rewrite filter_nil, app_nil_r.
  - rewrite IH by by apply insert_by_priority_sorted.
    rewrite tier_insert_by_priority by done. rewrite <- app_assoc.
    unfold tier. by rewrite <- filter_app.
Qed.

Lemma submit_all_queue xs ch s :
  dedup_wf s →
  Forall (fun x => sub_channel x = ch) xs →
  queue_of (submit_all xs s).2 ch =
    foldl (fun q m => insert_by_priority m q) (queue_of s ch) (map message_of xs).
Proof.
  intros Hwf Hxs. revert s Hwf.
  induction Hxs as [|x xs Hx Hxs IH]; intros s Hwf; simpl; [done|].
  unfold bind at 1.
  pose proof (queue_message_wf (sub_channel x) (sub_embed x) (sub_file x)
    (sub_content x) (sub_priority x) (sub_callback x) (sub_hash_clock x)
    (sub_time x) (sub_utc x) s Hwf) as Hwf1.
  destruct (queue_message_queued (sub_channel x) (sub_embed x) (sub_file x)
    (sub_content x) (sub_priority x) (sub_callback x) (sub_hash_clock x)
    (sub_time x) (sub_utc x) s Hwf) as [kept [_ [_ E]]].
  unfold submit at 1. unfold submit in IH. rewrite E in *. clear E.
  rewrite IH by exact Hwf1. f_equal.
  unfold queue_of at 1. simpl. rewrite Hx, lookup_insert_eq. simpl.
  unfold message_of. by rewrite Hx.
Qed.

(** C4: the queue built by any sequence of submissions to one channel.
    Each insertion goes to the first position holding a numerically greater
    priority (the end when there is none); the queue is sorted by urgency,
    so its head is a most urgent message; and every priority tier lists its
    messages in arrival order. *)
Theorem stable_priority_insertion xs ch :
  Forall (fun x => sub_channel x = ch) xs →
  let q := queue_of (submit_all xs init).2 ch in
  (∀ m q0, ∃ i : nat,
      insert_by_priority m q0 = take i q0 ++ m :: drop i q0 ∧
      (∀ (j : nat) x, (j < i)%nat → q0 !! j = Some x →
         ¬ priority_value (priority m) < priority_value (priority x)) ∧
      (i = length q0 ∨
       ∃ x, q0 !! i = Some x ∧
            priority_value (priority m) < priority_value (priority x))) ∧
  q = foldl (fun q m => insert_by_priority m q) [] (map message_of xs) ∧
  StronglySorted at_least_as_urgent q ∧
  (∀ h, head q = Some h → Forall (at_least_as_urgent h) q) ∧
  (∀ p, tier p q = tier p (map message_of xs)).
Proof.
  intros Hxs q. split; [apply insert_by_priority_position|].
  assert (Hq : q = foldl (fun q m => insert_by_priority m q) [] (map message_of xs)).
  { subst q. rewrite (submit_all_queue xs ch init dedup_wf_init Hxs).
    unfold queue_of. simpl. by rewrite lookup_empty. }
  assert (Hs : StronglySorted at_least_as_urgent q).
  { rewrite Hq. apply enqueue_all_sorted. constructor. }
  split; [exact Hq|]. split; [exact Hs|]. split.
  - intros h Hh. destruct Hs as [|x q' Hq' Hx]; [done|]. simpl in Hh.
    injection Hh as ->. constructor; [unfold at_least_as_urgent; lia|done].
  - intros p. rewrite Hq, enqueue_all_tier by constructor. done.
Qed.

(** *** What each method changes *)

#[local] Arguments Nat.leb : simpl never.

Ltac run := unfold bind, gets, modify, ret, release; simpl.

Lemma can_send_state ch t s :
  (_can_send_to_channel ch t s).2 =
    set_channel_message_count
      (<[ch := purge_window t 5000 (default [] (channel_message_count s !! ch))]>
         (channel_message_count s)) s.
Proof.
  unfold _can_send_to_channel. run.
  rewrite <- dd_get_default, <- (dd_get_insert (channel_message_count s)).
  destruct (dd_get (channel_message_count s) ch) as [times cmc1]. simpl.
  destruct (_ <=? _)%nat; [done|]. simpl. by case_bool_decide.
Qed.

Lemma globally_limited_state t s :
  (_is_globally_rate_limited t s).2 =
    set_global_message_times (purge_window t 1000 (global_message_times s)) s.
Proof.
  unfold _is_globally_rate_limited. run.
  destruct (_ <=? _)%nat; [done|]. simpl. by case_bool_decide.
Qed.

Lemma globally_limited_before_reset t s :
  t < global_rate_limit_reset s → (_is_globally_rate_limited t s).1 = true.
Proof.
  intros H. unfold _is_globally_rate_limited. run.
  destruct (_ <=? _)%nat; [done|]. simpl. by rewrite bool_decide_true.
Qed.

Lemma queue_message_frame ch e f c p cb hc t u s :
  let s' := (queue_message ch e f c p cb hc t u s).2 in
  processing_channels s' = processing_channels s ∧
  global_rate_limit_reset s' = global_rate_limit_reset s ∧
  global_message_times s' = global_message_times s ∧
  channel_message_count s' = channel_message_count s ∧
  channel_last_sent s' = channel_last_sent s.
Proof.
  unfold queue_message. run.
  destruct (dd_get (recent_embeds s) ch) as [recent re1]. simpl.
  destruct (remove_old_hashes t recent) as [kept|]; simpl; [|done].
  destruct (str_in _ kept); simpl; [done|].
  by destruct (dd_get (channel_queues s) ch).
Qed.

(** The four ways through [loop_head]. *)
Lemma loop_head_cases ch t s :
  let s1 := (_can_send_to_channel ch t s).2 in
  let s2 := (_is_globally_rate_limited t s1).2 in
  (queue_of s ch = [] ∧
   loop_head ch t s =
     ((WDone, []), set_processing_channels (processing_channels s ∖ {[ch]}) s)) ∨
  (queue_of s ch ≠ [] ∧ (_can_send_to_channel ch t s).1 = false ∧
   loop_head ch t s =
     ((WDone, []), set_processing_channels (processing_channels s ∖ {[ch]}) s1)) ∨
  (queue_of s ch ≠ [] ∧ (_can_send_to_channel ch t s).1 = true ∧
   (_is_globally_rate_limited t s1).1 = true ∧
   loop_head ch t s =
     ((WDone, []), set_processing_channels (processing_channels s ∖ {[ch]}) s2)) ∨
  (∃ m rest,
     queue_of s ch = m :: rest ∧ (_can_send_to_channel ch t s).1 = true ∧
     (_is_globally_rate_limited t s1).1 = false ∧
     loop_head ch t s = ((WSend m t, [ActSend ch m t]), set_queue ch rest s2)).
Proof.
  intros s1 s2. unfold loop_head. run.
  destruct (queue_of s ch) as [|m rest] eqn:Eq; [by left|]. right.
  assert (Hp1 : processing_channels s1 = processing_channels s)
    by (subst s1; by rewrite can_send_state).
  assert (Hp2 : processing_channels s2 = processing_channels s)
    by (subst s2; by rewrite globally_limited_state).
  subst s2 s1.
  destruct (_can_send_to_channel ch t s) as [can s1]. simpl in *.
  destruct can; simpl; [|left; by rewrite Hp1]. right.
  destruct (_is_globally_rate_limited t s1) as [limited s2]. simpl in *.
  destruct limited; simpl; [left; by rewrite Hp2|]. right. eauto 10.
Qed.

Lemma handle_failure_state ch m s :
  handle_failure ch m s =
    if bool_decide (retry_count m + 1 < 3)
    then ((WDelay, []),
          set_queue ch (with_retry_count m (retry_count m + 1) :: queue_of s ch) s)
    else ((WDelay, [LogRetriesExhausted (with_retry_count m (retry_count m + 1))]), s).
Proof. unfold handle_failure. simpl. by case_bool_decide. Qed.

Lemma record_success_state ch m t s :
  record_success ch m t s =
    ((match callback m with
      | Some cb => (WCallback m, [ActDelivered ch m; ActCallback cb])
      | None => (WDelay, [ActDelivered ch m])
      end),
     set_channel_last_sent (<[ch := t]> (channel_last_sent s))
       (set_channel_message_count
          (<[ch := deque_append CHANNEL_RATE_LIMIT
                     (default [] (channel_message_count s !! ch)) t]>
             (channel_message_count s))
          (set_global_message_times
             (deque_append GLOBAL_RATE_LIMIT (global_message_times s) t) s))).
Proof.
  unfold record_success. run.
  rewrite <- dd_get_default, <- (dd_get_insert (channel_message_count s)).
  destruct (dd_get (channel_message_count s) ch) as [times cmc1]. simpl.
  by destruct (callback m).
Qed.

Lemma on_send_result_cases ch m t res clock s :
  on_send_result ch m t res clock s =
    match res with
    | Sent => record_success ch m t s
    | RateLimited ra is_global =>
        ((WRetryAfter m t,
          [if is_global then LogGlobalRateLimit (default 1000 ra)
           else LogChannelRateLimit (default 1000 ra)]),
         if is_global
         then set_global_rate_limit_reset (clock + default 1000 ra) s else s)
    | HTTPError | SendException =>
        ((handle_failure ch m s).1.1, LogSendError :: (handle_failure ch m s).1.2,
         (handle_failure ch m s).2)
    end.
Proof.
  unfold on_send_result. destruct res as [|ra g| |]; run.
  - by destruct (record_success ch m t s) as [[pc a] s'].
  - by destruct g.
  - by destruct (handle_failure ch m s) as [[pc a] s'].
  - by destruct (handle_failure ch m s) as [[pc a] s'].
Qed.

(** How one resumption of a worker moves its claim. *)
Lemma worker_step_claim ch pc inp s :
  let r := _process_channel_queue ch pc inp s in
  let P := processing_channels s in
  let P' := processing_channels r.2 in
  match pc with
  | WStart =>
      (ch ∈ P ∧ r = ((WDone, []), s)) ∨
      ((ch ∉ P) ∧ ((holding r.1.1 = true ∧ P' = {[ch]} ∪ P) ∨
                  (r.1.1 = WDone ∧ P' = ({[ch]} ∪ P) ∖ {[ch]})))
  | WDone => r = ((WDone, []), s)
  | _ => (holding r.1.1 = true ∧ P' = P) ∨ (r.1.1 = WDone ∧ P' = P ∖ {[ch]})
  end.
Proof.
  assert (Hloop : ∀ t s0,
    (holding (loop_head ch t s0).1.1 = true ∧
     processing_channels (loop_head ch t s0).2 = processing_channels s0) ∨
    ((loop_head ch t s0).1.1 = WDone ∧
     processing_channels (loop_head ch t s0).2 = processing_channels s0 ∖ {[ch]})).
  { intros t s0.
    destruct (loop_head_cases ch t s0) as [[_ ->]|[(_&_& ->)|[(_&_&_& ->)|(m&rest&_&_&_& ->)]]];
      simpl; auto.
    left. split; [done|]. by rewrite globally_limited_state, can_send_state. }
  assert (Hfail : ∀ m s0,
    holding (handle_failure ch m s0).1.1 = true ∧
    processing_channels (handle_failure ch m s0).2 = processing_channels s0).
  { intros m s0. rewrite handle_failure_state. by case_bool_decide. }
  destruct pc as [|m t|m t|m| |]; simpl.
  - unfold worker_enter. run. case_bool_decide as Hin; [by left|]. right.
    split; [done|].
    destruct (dd_get (channel_queues s) ch) as [q cq1]. simpl.
    destruct (channel_found inp); simpl; [|by right].
    match goal with |- context [loop_head ch ?t ?s0] =>
      destruct (Hloop t s0) as [[H1 H2]|[H1 H2]] end; rewrite H1, H2; simpl; auto.
  - rewrite on_send_result_cases. destruct (result inp) as [|ra g| |].
    + rewrite record_success_state. left. by destruct (callback m).
    + destruct g; run; by left.
    + run. destruct (Hfail m s) as [H1 H2].
      destruct (handle_failure ch m s) as [[pc' a] s']. simpl in *. by left.
    + run. destruct (Hfail m s) as [H1 H2].
      destruct (handle_failure ch m s) as [[pc' a] s']. simpl in *. by left.
  - left. apply Hfail.
  - by left.
  - apply Hloop.
  - done.
Qed.

Lemma scan_channels_frame keys t s :
  let s' := (scan_channels keys t s).2 in
  processing_channels s' = processing_channels s ∧
  channel_queues s' = channel_queues s ∧
  global_rate_limit_reset s' = global_rate_limit_reset s.
Proof.
  revert s. induction keys as [|ch keys IH]; intros s; simpl; [done|].
  run. destruct (queue_of s ch); [apply IH|].
  case_bool_decide; [apply IH|].
  pose proof (can_send_state ch t s) as Hs.
  destruct (_can_send_to_channel ch t s) as [can s1]. simpl in Hs.
  specialize (IH s1). destruct (scan_channels keys t s1) as [started s2].
  simpl in *. by rewrite Hs in IH.
Qed.

Lemma process_queues_frame t s :
  let s' := (_process_queues t s).2 in
  processing_channels s' = processing_channels s ∧
  channel_queues s' = channel_queues s ∧
  global_rate_limit_reset s' = global_rate_limit_reset s.
Proof.
  unfold _process_queues. run.
  pose proof (globally_limited_state t s) as Hs.
  destruct (_is_globally_rate_limited t s) as [limited s1]. simpl in Hs.
  destruct limited; simpl; [by rewrite Hs|].
  pose proof (scan_channels_frame (map_to_list (channel_queues s1)).*1 t s1) as Hf.
  destruct (scan_channels _ t s1) as [started s2]. simpl in Hf.
  rewrite Hs in Hf. by destruct started.
Qed.

Lemma flush_all_queues_state s : (flush_all_queues s).2 = s.
Proof. reflexivity. Qed.

Lemma get_queue_stats_state clock s : (get_queue_stats clock s).2 = s.
Proof. reflexivity. Qed.

(** *** Mutual exclusion of workers *)

Lemma holds_claim_spawn l l' ts chs i ch :
  holds_claim {| lim := l'; tasks := ts ++ spawn chs |} i ch ↔
  holds_claim {| lim := l; tasks := ts |} i ch.
Proof.
  unfold holds_claim. simpl. split; intros [pc [Hi Hh]]; exists pc; split; try done.
  - apply lookup_app_Some in Hi as [Hi|[_ Hi]]; [done|].
    unfold spawn in Hi. rewrite list_lookup_fmap in Hi.
    destruct (chs !! _); simplify_eq/=.
  - by apply lookup_app_l_Some.
Qed.

Lemma claims_wf_spawn σ l' chs :
  processing_channels l' = processing_channels (lim σ) →
  claims_wf σ → claims_wf {| lim := l'; tasks := tasks σ ++ spawn chs |}.
Proof.
  intros HP [Huniq Hin]. destruct σ as [l ts]. simpl in *. split.
  - intros i j ch Hi Hj. apply (Huniq i j ch); by eapply holds_claim_spawn.
  - intros i ch Hi. simpl. rewrite HP. apply (Hin i). by eapply holds_claim_spawn.
Qed.

Lemma claims_wf_update σ i ch pc pc' l' :
  claims_wf σ →
  tasks σ !! i = Some (ch, pc) →
  (holding pc' = true → holding pc = true ∨ ch ∉ processing_channels (lim σ)) →
  (∀ c, c ∈ processing_channels (lim σ) →
        c ∈ processing_channels l' ∨ (c = ch ∧ holding pc = true)) →
  (holding pc' = true → ch ∈ processing_channels l') →
  claims_wf {| lim := l'; tasks := <[i := (ch, pc')]> (tasks σ) |}.
Proof.
  intros [Huniq Hin] Hi H1 H2 H3.
  assert (Hlt : (i < length (tasks σ))%nat) by by eapply lookup_lt_Some.
  assert (Hold : ∀ j c, j ≠ i →
    holds_claim {| lim := l'; tasks := <[i := (ch, pc')]> (tasks σ) |} j c →
    holds_claim σ j c).
  { intros j c Hne [q [Hj Hq]]. simpl in Hj.
    rewrite list_lookup_insert_ne in Hj by done. by exists q. }
  assert (Hnew : ∀ c,
    holds_claim {| lim := l'; tasks := <[i := (ch, pc')]> (tasks σ) |} i c →
    c = ch ∧ holding pc' = true).
  { intros c [q [Hj Hq]]. simpl in Hj.
    rewrite list_lookup_insert_eq in Hj by done. by simplify_eq. }
  assert (Hclash : ∀ j, j ≠ i → holds_claim σ j ch → holding pc' = true → False).
  { intros j Hne Hj Hp. destruct (H1 Hp) as [Hpc|Hfree].
    - apply Hne. apply (Huniq j i ch); [done|]. by exists pc.
    - apply Hfree. by apply (Hin j). }
  split.
  - intros j k c Hj Hk.
    destruct (decide (j = i)) as [->|Hji], (decide (k = i)) as [->|Hki]; try done.
    + apply Hnew in Hj as [-> Hp]. apply Hold in Hk; [|done].
      by destruct (Hclash k).
    + apply Hnew in Hk as [-> Hp]. apply Hold in Hj; [|done].
      by destruct (Hclash j).
    + apply (Huniq j k c); by apply Hold.
  - intros j c Hj. simpl. destruct (decide (j = i)) as [->|Hji].
    + apply Hnew in Hj as [-> Hp]. by apply H3.
    + apply Hold in Hj; [|done].
      destruct (H2 c (Hin j c Hj)) as [Hc|[-> Hp]]; [done|].
      destruct Hji. apply (Huniq j i ch); [done|]. by exists pc.
Qed.

Lemma claims_wf_exec ev σ : claims_wf σ → claims_wf (sys_exec ev σ).1.
Proof.
  intros Hwf. destruct ev as [x|clock| |i inp|i|clock]; simpl.
  - pose proof (queue_message_frame (sub_channel x) (sub_embed x) (sub_file x)
      (sub_content x) (sub_priority x) (sub_callback x) (sub_hash_clock x)
      (sub_time x) (sub_utc x) (lim σ)) as [HP _].
    unfold submit. destruct (queue_message _ _ _ _ _ _ _ _ _ _) as [o l]. simpl in *.
    rewrite <- (app_nil_r (tasks σ)). by apply (claims_wf_spawn σ l []).
  - pose proof (process_queues_frame clock (lim σ)) as [HP _].
    destruct (_process_queues clock (lim σ)) as [r l]. simpl in *.
    by apply claims_wf_spawn.
  - by apply claims_wf_spawn.
  - destruct (tasks σ !! i) as [[ch pc]|] eqn:Hi; [|done].
    pose proof (worker_step_claim ch pc inp (lim σ)) as Hstep.
    destruct (_process_channel_queue ch pc inp (lim σ)) as [[pc' acts] l]. simpl in *.
    apply (claims_wf_update σ i ch pc pc' l Hwf Hi).
    + intros Hp. destruct pc; simpl in *; auto; [|by simplify_eq/=].
      destruct Hstep as [[_ Hs]|[Hfree _]]; [by simplify_eq/=|auto].
    + intros c Hc. destruct pc; simpl in *;
        [ destruct Hstep as [[_ Hs]|[Hfree [[_ ->]|[_ ->]]]];
            [simplify_eq/=; by left| |]; left; set_solver
        | (destruct Hstep as [[_ ->]|[_ ->]]; [by left|];
           destruct (decide (c = ch)) as [->|Hne]; [by right|left; set_solver]) ..
        | simplify_eq/=; by left ].
    + intros Hp. destruct Hwf as [_ Hin]. destruct pc; simpl in *;
        [ destruct Hstep as [[_ Hs]|[Hfree [[_ ->]|[-> _]]]];
            [by simplify_eq/=| set_solver | done]
        | (destruct Hstep as [[_ ->]|[-> _]]; [|done]; apply (Hin i); by eexists) ..
        | by simplify_eq/= ].
  - destruct (tasks σ !! i) as [[ch pc]|] eqn:Hi; [|done].
    unfold worker_cancel. destruct (holding pc) eqn:Hpc; run.
    + apply (claims_wf_update σ i ch pc WDone _ Hwf Hi); simpl; try done.
      intros c Hc. destruct (decide (c = ch)) as [->|Hne]; [by right|left; set_solver].
    + apply (claims_wf_update σ i ch pc WDone _ Hwf Hi); simpl; try done.
      intros c Hc. by left.
  - rewrite <- (app_nil_r (tasks σ)). by apply (claims_wf_spawn σ (lim σ) []).
Qed.

Lemma claims_wf_run evs σ : claims_wf σ → claims_wf (sys_run evs σ).1.
Proof.
  revert σ. induction evs as [|ev evs IH]; intros σ Hwf; simpl; [done|].
  pose proof (claims_wf_exec ev σ Hwf) as H1.
  destruct (sys_exec ev σ) as [σ1 a1]. specialize (IH σ1 H1).
  by destruct (sys_run evs σ1) as [σ2 a2].
Qed.

Lemma claims_wf_init : claims_wf sys_init.
Proof. split; intros i; intros; destruct H as [pc [H _]]; by destruct i. Qed.

(** C8: in every state the event loop can reach, at most one worker task
    holds the claim of a channel, and a held channel is in the processing
    set; a worker started on a channel that is already in the processing
    set finishes at once, with the limiter left as it was and nothing
    sent or logged. *)
Theorem worker_mutual_exclusion evs :
  let σ := (sys_run evs sys_init).1 in
  (∀ i j ch, holds_claim σ i ch → holds_claim σ j ch → i = j) ∧
  (∀ i ch, holds_claim σ i ch → ch ∈ processing_channels (lim σ)) ∧
  (∀ ch inp s, ch ∈ processing_channels s →
     _process_channel_queue ch WStart inp s = ((WDone, []), s)).
Proof.
  intros σ. destruct (claims_wf_run evs sys_init claims_wf_init) as [H1 H2].
  split; [exact H1|]. split; [exact H2|].
  intros ch inp s Hin. simpl. unfold worker_enter. run.
  by rewrite bool_decide_true.
Qed.

(** *** Global throttle *)

Lemma globally_limited_false t s :
  (_is_globally_rate_limited t s).1 = false ↔
  (length (purge_window t 1000 (global_message_times s)) < GLOBAL_RATE_LIMIT)%nat ∧
  global_rate_limit_reset s <= t.
Proof.
  unfold _is_globally_rate_limited. run.
  destruct (GLOBAL_RATE_LIMIT <=? _)%nat eqn:E; simpl.
  - apply Nat.leb_le in E. split; [done|lia].
  - apply Nat.leb_gt in E. case_bool_decide; simpl; split; try done; lia.
Qed.

Lemma loop_head_sends ch t s c m t' :
  In (ActSend c m t') (loop_head ch t s).1.2 →
  c = ch ∧ t' = t ∧ (∃ rest, queue_of s ch = m :: rest) ∧
  (_can_send_to_channel ch t s).1 = true ∧
  global_rate_limit_reset s <= t.
Proof.
  destruct (loop_head_cases ch t s)
    as [[_ ->]|[(_&_& ->)|[(_&_&_& ->)|(m0&rest&Hq&Hcan&Hlim& ->)]]]; simpl; try done.
  intros [Heq|[]]. injection Heq as <- <- <-. repeat split; eauto.
  apply globally_limited_false in Hlim as [_ Hlim].
  by rewrite can_send_state in Hlim.
Qed.

Lemma handle_failure_no_send ch m s c m' t :
  ¬ In (ActSend c m' t) (handle_failure ch m s).1.2.
Proof. rewrite handle_failure_state. case_bool_decide; simpl; intuition discriminate. Qed.

Lemma worker_step_sends ch pc inp s c m t :
  In (ActSend c m t) (_process_channel_queue ch pc inp s).1.2 →
  c = ch ∧ t = now inp ∧ (∃ rest, queue_of s ch = m :: rest) ∧
  global_rate_limit_reset s <= t ∧ (pc = WStart ∨ pc = WDelay).
Proof.
  destruct pc as [|m0 t0|m0 t0|m0| |]; simpl.
  - unfold worker_enter. run. case_bool_decide; simpl; [done|].
    destruct (dd_get (channel_queues s) ch) as [q cq1] eqn:Edd. simpl.
    destruct (channel_found inp); simpl; [|intuition discriminate].
    intros Hs. apply loop_head_sends in Hs as (-> & -> & [rest Hq] & _ & Ht).
    repeat split; eauto. exists rest. rewrite <- Hq. unfold queue_of. simpl.
    replace cq1 with (dd_get (channel_queues s) ch).2 by by rewrite Edd.
    by rewrite dd_get_lookup.
  - rewrite on_send_result_cases. destruct (result inp) as [|ra g| |].
    + rewrite record_success_state. simpl. destruct (callback m0); simpl; intuition discriminate.
    + destruct g; run; intuition discriminate.
    + run. pose proof (handle_failure_no_send ch m0 s c m t) as Hn.
      destruct (handle_failure ch m0 s) as [[pc' a] s']. simpl in *. intuition discriminate.
    + run. pose proof (handle_failure_no_send ch m0 s c m t) as Hn.
      destruct (handle_failure ch m0 s) as [[pc' a] s']. simpl in *. intuition discriminate.
  - intros H. by apply handle_failure_no_send in H.
  - done.
  - intros H. apply loop_head_sends in H as (-> & -> & Hq & _ & Ht). eauto 10.
  - done.
Qed.

Lemma sys_exec_sends ev σ c m t :
  In (ActSend c m t) (sys_exec ev σ).2 →
  ∃ i pc inp, ev = EvResume i inp ∧ tasks σ !! i = Some (c, pc) ∧
    In (ActSend c m t) (_process_channel_queue c pc inp (lim σ)).1.2.
Proof.
  destruct ev as [x|clock| |i inp|i|clock]; simpl.
  - by destruct (submit x (lim σ)).
  - by destruct (_process_queues clock (lim σ)).
  - done.
  - destruct (tasks σ !! i) as [[ch pc]|] eqn:Hi; [|done].
    destruct (_process_channel_queue ch pc inp (lim σ)) as [r l] eqn:E. simpl. intros H.
    assert (H' : In (ActSend c m t) (_process_channel_queue ch pc inp (lim σ)).1.2)
      by by rewrite E.
    destruct (worker_step_sends _ _ _ _ _ _ _ H') as [-> _]. eauto 10.
  - destruct (tasks σ !! i) as [[ch pc]|]; [|done].
    by destruct (worker_cancel ch pc (lim σ)).
  - done.
Qed.

(** *** Recording of sends *)

Lemma deque_append_once maxlen d x :
  ∃ dropped kept,
    d = dropped ++ kept ∧ deque_append maxlen d x = kept ++ [x] ∧
    ((length d < maxlen)%nat → dropped = []).
Proof.
  unfold deque_append. destruct (maxlen <=? length d)%nat eqn:E.
  - apply Nat.leb_le in E. destruct d as [|y d]; simpl.
    + exists [], []. by repeat split.
    + exists [y], d. repeat split. simpl in *. intros. lia.
  - exists [], d. by repeat split.
Qed.

(** C6: a successful send appends its timestamp once to the global window
    and once to the channel's window (a full deque drops its oldest entry)
    and stores it as the channel's last-sent time; a failed send, whatever
    the failure, leaves both windows and the last-sent map as they were,
    also through the retry handling that follows a 429. *)
Theorem send_recording ch m t res clock s :
  let s' := (on_send_result ch m t res clock s).2 in
  match res with
  | Sent =>
      (∃ dropped kept,
          global_message_times s = dropped ++ kept ∧
          global_message_times s' = kept ++ [t] ∧
          ((length (global_message_times s) < GLOBAL_RATE_LIMIT)%nat → dropped = [])) ∧
      (∃ dropped kept,
          default [] (channel_message_count s !! ch) = dropped ++ kept ∧
          channel_message_count s' !! ch = Some (kept ++ [t]) ∧
          ((length (default [] (channel_message_count s !! ch)) < CHANNEL_RATE_LIMIT)%nat →
           dropped = [])) ∧
      (∀ k, k ≠ ch → channel_message_count s' !! k = channel_message_count s !! k) ∧
      channel_last_sent s' = <[ch := t]> (channel_last_sent s)
  | _ =>
      global_message_times s' = global_message_times s ∧
      channel_message_count s' = channel_message_count s ∧
      channel_last_sent s' = channel_last_sent s ∧
      (∀ s0, let s1 := (handle_failure ch m s0).2 in
             global_message_times s1 = global_message_times s0 ∧
             channel_message_count s1 = channel_message_count s0 ∧
             channel_last_sent s1 = channel_last_sent s0)
  end.
Proof.
  assert (Hfail : ∀ s0, let s1 := (handle_failure ch m s0).2 in
             global_message_times s1 = global_message_times s0 ∧
             channel_message_count s1 = channel_message_count s0 ∧
             channel_last_sent s1 = channel_last_sent s0).
  { intros s0. simpl. rewrite handle_failure_state. by case_bool_decide. }
  cbv zeta. rewrite on_send_result_cases. destruct res as [|ra g| |]; simpl.
  - rewrite record_success_state. simpl. split; [apply deque_append_once|].
    split; [|split; [|done]].
    + destruct (deque_append_once CHANNEL_RATE_LIMIT
        (default [] (channel_message_count s !! ch)) t) as (dr & kept & H1 & H2 & H3).
      exists dr, kept. by rewrite lookup_insert_eq, H2.
    + intros k Hk. by rewrite lookup_insert_ne.
  - destruct g; run; auto.
  - run. specialize (Hfail s). simpl in Hfail.
    destruct (handle_failure ch m s) as [[pc a] s1] eqn:E. simpl in *.
    repeat split; try apply Hfail.
    all: rewrite handle_failure_state; by case_bool_decide.
  - run. specialize (Hfail s). simpl in Hfail.
    destruct (handle_failure ch m s) as [[pc a] s1] eqn:E. simpl in *.
    repeat split; try apply Hfail.
    all: rewrite handle_failure_state; by case_bool_decide.
Qed.

(** *** Statistics *)

(** C10: [get_queue_stats] returns the limiter it was called on, with
    every attribute as it was. *)
Theorem stats_read_only clock s : (get_queue_stats clock s).2 = s.
Proof. reflexivity. Qed.

(** C9 (amended): a second call to [get_queue_stats] on the same limiter
    returns the result of the first with the global-throttle flag computed
    again from the second call's clock; all other fields are identical, and
    so is the flag when both clocks are on the same side of the global
    deadline. *)
Theorem stats_idempotent_up_to_clock t1 t2 s :
  let r1 := get_queue_stats t1 s in
  let r2 := get_queue_stats t2 r1.2 in
  r2.1 = {| total_queued := total_queued r1.1;
            active_channels := active_channels r1.1;
            stat_processing_channels := stat_processing_channels r1.1;
            priority_breakdown := priority_breakdown r1.1;
            global_rate_limit_active := bool_decide (t2 < global_rate_limit_reset s);
            recent_global_messages := recent_global_messages r1.1 |} ∧
  global_rate_limit_active r1.1 = bool_decide (t1 < global_rate_limit_reset s) ∧
  ((t1 < global_rate_limit_reset s ↔ t2 < global_rate_limit_reset s) → r2.1 = r1.1).
Proof.
  split; [reflexivity|]. split; [reflexivity|].
  intros Hside. unfold get_queue_stats. run. f_equal.
  apply bool_decide_ext. by symmetry.
Qed.

(** *** Throttle handling *)



(** *** Retries *)

Lemma purge_window_length t w d : (length (purge_window t w d) ≤ length d)%nat.
Proof.
  induction d as [|x d IH]; simpl; [done|]. case_bool_decide; simpl; lia.
Qed.

Lemma can_send_true ch t s :
  (_can_send_to_channel ch t s).1 = true ↔
  (length (purge_window t 5000 (default [] (channel_message_count s !! ch)))
     < CHANNEL_RATE_LIMIT)%nat ∧
  default 0 (channel_last_sent s !! ch) + MESSAGE_DELAY <= t.
Proof.
  unfold _can_send_to_channel. run. rewrite <- dd_get_default.
  destruct (dd_get (channel_message_count s) ch) as [times cmc1]. simpl.
  destruct (CHANNEL_RATE_LIMIT <=? _)%nat eqn:E; simpl.
  - apply Nat.leb_le in E. split; [done|lia].
  - apply Nat.leb_gt in E. case_bool_decide; simpl; split; try done; lia.
Qed.

Lemma queue_of_set_queue ch q s : queue_of (set_queue ch q s) ch = q.
Proof. unfold queue_of. simpl. by rewrite lookup_insert_eq. Qed.

Lemma quiet_later ch t t' s : t <= t' → quiet ch t s → quiet ch t' s.
Proof. unfold quiet. intros ? (?&?&?&?). repeat split; try done; lia. Qed.

(** A worker resumed at the loop header of a quiet channel sends the head. *)
Lemma loop_head_quiet ch t s m rest :
  quiet ch t s → queue_of s ch = m :: rest →
  ∃ s1, loop_head ch t s = ((WSend m t, [ActSend ch m t]), s1) ∧
        queue_of s1 ch = rest ∧
        processing_channels s1 = processing_channels s ∧
        quiet ch t s1.
Proof.
  intros (Hg & Hc & Hr & Hl) Hq.
  assert (Hcan : (_can_send_to_channel ch t s).1 = true).
  { apply can_send_true. split; [|done].
    pose proof (purge_window_length t 5000
      (default [] (channel_message_count s !! ch))). lia. }
  assert (Hlim : (_is_globally_rate_limited t (_can_send_to_channel ch t s).2).1 = false).
  { apply globally_limited_false. rewrite can_send_state. simpl. split; [|done].
    pose proof (purge_window_length t 1000 (global_message_times s)). lia. }
  destruct (loop_head_cases ch t s)
    as [[Hq' _]|[(_&Hc'&_)|[(_&_&Hl'&_)|(m0&rest0&Hq'&_&_& ->)]]]; try congruence.
  rewrite Hq in Hq'. injection Hq' as <- <-.
  eexists. split; [reflexivity|]. rewrite queue_of_set_queue.
  rewrite globally_limited_state, can_send_state. unfold quiet, set_queue. simpl.
  repeat split; try done.
  - pose proof (purge_window_length t 1000 (global_message_times s)). lia.
  - rewrite lookup_insert_eq. simpl.
    pose proof (purge_window_length t 5000
      (default [] (channel_message_count s !! ch))). lia.
Qed.

Lemma worker_enter_quiet ch t s m rest :
  ch ∉ processing_channels s → quiet ch t s → queue_of s ch = m :: rest →
  ∃ s1, _process_channel_queue ch WStart (wake t) s = ((WSend m t, [ActSend ch m t]), s1) ∧
        queue_of s1 ch = rest ∧ quiet ch t s1.
Proof.
  intros Hfree Hquiet Hq. simpl. unfold worker_enter. run.
  rewrite bool_decide_false by done.
  pose proof (dd_get_lookup (channel_queues s) ch ch) as Hdd.
  destruct (dd_get (channel_queues s) ch) as [q cq1]. simpl in *.
  match goal with |- context [loop_head ch t ?s0] =>
    destruct (loop_head_quiet ch t s0 m rest) as (s1 & E & Hq1 & _ & Hquiet1) end.
  - exact Hquiet.
  - unfold queue_of. simpl. by rewrite Hdd.
  - exists s1. by rewrite E.
Qed.

Lemma transient_step ch m t r c s :
  transient r →
  _process_channel_queue ch (WSend m t) (answer r c) s =
    if bool_decide (retry_count m + 1 < 3)
    then ((WDelay, [LogSendError]),
          set_queue ch (with_retry_count m (retry_count m + 1) :: queue_of s ch) s)
    else ((WDelay, [LogSendError;
                    LogRetriesExhausted (with_retry_count m (retry_count m + 1))]), s).
Proof.
  intros [-> | ->]; cbn [_process_channel_queue result now answer];
    rewrite on_send_result_cases, handle_failure_state; by case_bool_decide.
Qed.

Lemma loop_head_empty ch t s :
  queue_of s ch = [] →
  loop_head ch t s =
    ((WDone, []), set_processing_channels (processing_channels s ∖ {[ch]}) s).
Proof.
  intros Hq.
  destruct (loop_head_cases ch t s)
    as [[_ ->]|[(Hq'&_)|[(Hq'&_)|(m0&rest0&Hq'&_)]]]; congruence.
Qed.

Lemma worker_run_step inp inputs ch pc s pc1 a1 s1 :
  pc ≠ WDone →
  _process_channel_queue ch pc inp s = ((pc1, a1), s1) →
  worker_run (inp :: inputs) ch pc s =
    ((worker_run inputs ch pc1 s1).1.1,
     a1 ++ (worker_run inputs ch pc1 s1).1.2,
     (worker_run inputs ch pc1 s1).2).
Proof.
  intros Hpc E. simpl. unfold bind, ret.
  destruct pc; try done; rewrite E; simpl;
    by destruct (worker_run inputs ch pc1 s1) as [[pc2 a2] s2].
Qed.

Lemma worker_run_done inputs ch s : worker_run inputs ch WDone s = ((WDone, []), s).
Proof. by destruct inputs. Qed.

(** One failed attempt of a worker alone on a quiet channel: the head is
    sent, the transient failure is handled, and the run goes on from the
    delay. *)
Lemma failed_attempt ch m rest t r c s pc0 :
  pc0 = WDelay ∨ (pc0 = WStart ∧ ch ∉ processing_channels s) →
  quiet ch t s → queue_of s ch = m :: rest → transient r →
  let m' := with_retry_count m (retry_count m + 1) in
  let again := bool_decide (retry_count m + 1 < 3) in
  ∃ s', quiet ch t s' ∧
        queue_of s' ch = (if again then m' :: rest else rest) ∧
        ∀ inputs,
          worker_run (wake t :: answer r c :: inputs) ch pc0 s =
            ((worker_run inputs ch WDelay s').1.1,
             ActSend ch m t :: LogSendError ::
               (if again then [] else [LogRetriesExhausted m']) ++
               (worker_run inputs ch WDelay s').1.2,
             (worker_run inputs ch WDelay s').2).
Proof.
  intros Hpc Hquiet Hq Hr m' again.
  assert (Hstep : ∃ s1,
    _process_channel_queue ch pc0 (wake t) s = ((WSend m t, [ActSend ch m t]), s1) ∧
    queue_of s1 ch = rest ∧ quiet ch t s1).
  { destruct Hpc as [->|[-> Hfree]].
    - destruct (loop_head_quiet ch t s m rest Hquiet Hq) as (s1 & E & H1 & _ & H2).
      by exists s1.
    - by apply worker_enter_quiet. }
  destruct Hstep as (s1 & E1 & Hq1 & Hquiet1).
  pose proof (transient_step ch m t r c s1 Hr) as E2. fold m' again in E2.
  exists (if again then set_queue ch (m' :: queue_of s1 ch) s1 else s1).
  split; [by destruct again|]. split.
  { destruct again; [by rewrite queue_of_set_queue, Hq1|done]. }
  intros inputs.
  assert (Hne : pc0 ≠ WDone) by (destruct Hpc as [->|[-> _]]; done).
  rewrite (worker_run_step _ _ _ _ _ _ _ _ Hne E1).
  assert (Hsend : WSend m t ≠ WDone) by done.
  destruct again; by rewrite (worker_run_step _ _ _ _ _ _ _ _ Hsend E2).
Qed.

(** The end of a run once the queue is empty, from the delay or from the
    callback of the last delivery. *)
Lemma drained ch t' t'' s pc :
  queue_of s ch = [] → pc = WDelay ∨ (∃ m, pc = WCallback m) →
  (worker_run [wake t'; wake t''] ch pc s).1 = (WDone, []) ∧
  queue_of (worker_run [wake t'; wake t''] ch pc s).2 ch = [].
Proof.
  assert (Hdelay : WDelay ≠ WDone) by done.
  intros Hq [->|[m ->]].
  - rewrite (worker_run_step (wake t') _ ch WDelay s _ _ _ Hdelay
               (loop_head_empty ch t' s Hq)).
    by rewrite worker_run_done.
  - assert (Hcb : WCallback m ≠ WDone) by done.
    rewrite (worker_run_step (wake t') _ ch _ s WDelay [] s Hcb eq_refl).
    rewrite (worker_run_step (wake t'') _ ch WDelay s _ _ _ Hdelay
               (loop_head_empty ch t'' s Hq)).
    done.
Qed.

(** The successful attempt that ends a run on a quiet channel whose queue
    holds one message. *)
Lemma successful_attempt ch m t c t' t'' s :
  quiet ch t s → queue_of s ch = [m] →
  let r := worker_run [wake t; answer Sent c; wake t'; wake t''] ch WDelay s in
  r.1 = (WDone,
         ActSend ch m t :: ActDelivered ch m ::
           match callback m with Some cb => [ActCallback cb] | None => [] end) ∧
  queue_of r.2 ch = [].
Proof.
  intros Hquiet Hq.
  destruct (loop_head_quiet ch t s m [] Hquiet Hq) as (s1 & E1 & Hq1 & _ & _).
  pose proof (record_success_state ch m t s1) as E2.
  set (s2 := set_channel_last_sent _ _) in E2.
  assert (Hq2 : queue_of s2 ch = []) by (subst s2; exact Hq1).
  cbv zeta.
  assert (Hdelay : WDelay ≠ WDone) by done.
  assert (Hsend : WSend m t ≠ WDone) by done.
  rewrite (worker_run_step (wake t) _ ch WDelay s _ _ _ Hdelay E1).
  pose proof (on_send_result_cases ch m t Sent c s1) as E3.
  cbv iota in E3. rewrite E2 in E3. clear E2.
  destruct (callback m) as [cb|].
  - rewrite (worker_run_step (answer Sent c) _ ch _ s1 _ _ _ Hsend E3).
    destruct (drained ch t' t'' s2 (WCallback m) Hq2) as [Hr1 Hr2]; [eauto|].
    cbn [fst snd]. rewrite Hr2. destruct (worker_run _ ch (WCallback m) s2) as [[pc a] s3].
    simpl in *. by simplify_eq.
  - rewrite (worker_run_step (answer Sent c) _ ch _ s1 _ _ _ Hsend E3).
    destruct (drained ch t' t'' s2 WDelay Hq2) as [Hr1 Hr2]; [eauto|].
    cbn [fst snd]. rewrite Hr2. destruct (worker_run _ ch WDelay s2) as [[pc a] s3].
    simpl in *. by simplify_eq.
Qed.

Lemma queues_ok_set_queue ch q s :
  queues_ok s → Forall retries_ok q → queues_ok (set_queue ch q s).
Proof.
  intros Hs Hq k q'. simpl. rewrite lookup_insert.
  case_decide; [by intros [= <-]|apply Hs].
Qed.

Lemma queues_ok_queue_of ch s : queues_ok s → Forall retries_ok (queue_of s ch).
Proof.
  intros Hs. unfold queue_of. destruct (channel_queues s !! ch) eqn:E; simpl.
  - by apply (Hs ch). 
  - constructor.
Qed.

Lemma queues_ok_frame s s' :
  channel_queues s' = channel_queues s → queues_ok s → queues_ok s'.
Proof. unfold queues_ok. by intros ->. Qed.

Lemma queues_ok_dd_get s :
  ∀ ch, queues_ok s → queues_ok (set_channel_queues (dd_get (channel_queues s) ch).2 s).
Proof.
  intros ch Hs k q. simpl. unfold dd_get.
  destruct (channel_queues s !! ch); simpl; [apply Hs|].
  rewrite lookup_insert. case_decide; [intros [= <-]; constructor|apply Hs].
Qed.

Lemma queue_message_queues_ok ch e f c p cb hc t u s :
  queues_ok s → queues_ok (queue_message ch e f c p cb hc t u s).2.
Proof.
  intros Hs. unfold queue_message. run.
  destruct (dd_get (recent_embeds s) ch) as [recent re1]. simpl.
  destruct (remove_old_hashes t recent) as [kept|]; simpl; [|done].
  destruct (str_in _ kept); simpl; [done|].
  pose proof (dd_get_default (channel_queues s) ch) as Hd.
  pose proof (queues_ok_dd_get s ch Hs) as Hs1.
  destruct (dd_get (channel_queues s) ch) as [queue cq1]. simpl in *.
  intros k q. simpl. rewrite lookup_insert.
  case_decide; [|apply (Hs1 k q)]. intros [= <-].
  apply Forall_insert_by_priority; [by unfold retries_ok|].
  subst queue. by apply queues_ok_queue_of.
Qed.

Lemma worker_step_retries ch pc inp s :
  queues_ok s → (∀ m, in_flight pc = Some m → retries_ok m) →
  queues_ok (_process_channel_queue ch pc inp s).2 ∧
  (∀ m, in_flight (_process_channel_queue ch pc inp s).1.1 = Some m → retries_ok m).
Proof.
  intros Hs Hpc.
  assert (Hloop : ∀ t s0, queues_ok s0 →
    queues_ok (loop_head ch t s0).2 ∧
    (∀ m, in_flight (loop_head ch t s0).1.1 = Some m → retries_ok m)).
  { intros t s0 Hs0.
    assert (H2 : queues_ok (_is_globally_rate_limited t (_can_send_to_channel ch t s0).2).2).
    { eapply queues_ok_frame; [|exact Hs0].
      by rewrite globally_limited_state, can_send_state. }
    pose proof (queues_ok_queue_of ch s0 Hs0) as Hq.
    destruct (loop_head_cases ch t s0)
      as [[_ ->]|[(_&_& ->)|[(_&_&_& ->)|(m&rest&Eq&_&_& ->)]]]; simpl.
    - done.
    - split; [|done]. eapply queues_ok_frame; [|exact Hs0]. by rewrite can_send_state.
    - split; [|done]. eapply queues_ok_frame; [|exact H2]. done.
    - rewrite Eq in Hq. apply Forall_cons in Hq as [Hm Hrest]. split.
      + by apply queues_ok_set_queue.
      + by intros ? [= <-]. }
  assert (Hfail : ∀ m s0, queues_ok s0 → retries_ok m →
    queues_ok (handle_failure ch m s0).2 ∧
    (∀ m', in_flight (handle_failure ch m s0).1.1 = Some m' → retries_ok m')).
  { intros m s0 Hs0 Hm. rewrite handle_failure_state.
    case_bool_decide as Hlt; simpl; [|done]. split; [|done].
    apply queues_ok_set_queue; [done|]. constructor.
    - unfold retries_ok in *. simpl. lia.
    - by apply queues_ok_queue_of. }
  destruct pc as [|m t|m t|m| |]; simpl.
  - unfold worker_enter. run. case_bool_decide; simpl; [done|].
    pose proof (queues_ok_dd_get s ch Hs) as Hs1.
    destruct (dd_get (channel_queues s) ch) as [q cq1]. simpl in *.
    destruct (channel_found inp); simpl.
    + apply Hloop. eapply queues_ok_frame; [|exact Hs1]. done.
    + split; [|done]. intros k q'. simpl. rewrite lookup_insert.
      case_decide; [intros [= <-]; constructor|apply (Hs1 k q')].
  - assert (Hm : retries_ok m) by by apply Hpc.
    rewrite on_send_result_cases. destruct (result inp) as [|ra g| |].
    + rewrite record_success_state. simpl. split; [done|]. by destruct (callback m).
    + destruct g; run; split; try done; by intros ? [= <-].
    + run. destruct (Hfail m s Hs Hm) as [H1 H2].
      by destruct (handle_failure ch m s) as [[pc' a] s'].
    + run. destruct (Hfail m s Hs Hm) as [H1 H2].
      by destruct (handle_failure ch m s) as [[pc' a] s'].
  - apply Hfail; [done|]. by apply Hpc.
  - done.
  - by apply Hloop.
  - done.
Qed.

Lemma retries_wf_exec ev σ : retries_wf σ → retries_wf (sys_exec ev σ).1.
Proof.
  intros [Hq Ht].
  assert (Hspawn : ∀ l chs, queues_ok l →
    retries_wf {| lim := l; tasks := tasks σ ++ spawn chs |}).
  { intros l chs Hl. split; [done|]. simpl. intros i ch pc m Hi.
    apply lookup_app_Some in Hi as [Hi|[_ Hi]]; [by eapply Ht|].
    unfold spawn in Hi. rewrite list_lookup_fmap in Hi.
    destruct (chs !! _); by simplify_eq/=. }
  assert (Hupd : ∀ l i ch pc', queues_ok l →
    (∀ m, in_flight pc' = Some m → retries_ok m) →
    retries_wf {| lim := l; tasks := <[i := (ch, pc')]> (tasks σ) |}).
  { intros l i ch pc' Hl Hpc'. split; [done|]. simpl. intros j c pc m Hj.
    destruct (decide (i = j)) as [->|Hne].
    - apply list_lookup_insert_Some in Hj as [[_ [[= <- <-] _]]|[? _]]; [apply Hpc'|done].
    - rewrite list_lookup_insert_ne in Hj by done. by eapply Ht. }
  destruct ev as [x|clock| |i inp|i|clock]; simpl.
  - pose proof (queue_message_queues_ok (sub_channel x) (sub_embed x) (sub_file x)
      (sub_content x) (sub_priority x) (sub_callback x) (sub_hash_clock x)
      (sub_time x) (sub_utc x) (lim σ) Hq) as Hq'.
    unfold submit. destruct (queue_message _ _ _ _ _ _ _ _ _ _) as [o l]. simpl in *.
    rewrite <- (app_nil_r (tasks σ)). by apply (Hspawn l []).
  - pose proof (process_queues_frame clock (lim σ)) as (_ & Hcq & _).
    destruct (_process_queues clock (lim σ)) as [r l]. simpl in *.
    apply Hspawn. by eapply queues_ok_frame.
  - by apply Hspawn.
  - destruct (tasks σ !! i) as [[ch pc]|] eqn:Hi; [|done].
    destruct (worker_step_retries ch pc inp (lim σ) Hq) as [H1 H2];
      [intros m; by apply (Ht i ch)|].
    destruct (_process_channel_queue ch pc inp (lim σ)) as [[pc' acts] l]. simpl in *.
    by apply Hupd.
  - destruct (tasks σ !! i) as [[ch pc]|] eqn:Hi; [|done].
    unfold worker_cancel. destruct (holding pc); run; by apply Hupd.
  - rewrite <- (app_nil_r (tasks σ)). by apply (Hspawn (lim σ) []).
Qed.

Lemma retries_wf_init : retries_wf sys_init.
Proof.
  split.
  - intros ch q. simpl. by rewrite lookup_empty.
  - intros i. by destruct i.
Qed.

(** No message is handed to the transport after three failures. *)
Lemma sends_bounded evs σ ch m t :
  retries_wf σ → In (ActSend ch m t) (sys_run evs σ).2 → retries_ok m.
Proof.
  revert σ. induction evs as [|ev evs IH]; intros σ Hwf; simpl; [done|].
  pose proof (retries_wf_exec ev σ Hwf) as Hwf1.
  pose proof (sys_exec_sends ev σ ch m t) as Hsend.
  destruct (sys_exec ev σ) as [σ1 a1]. specialize (IH σ1 Hwf1).
  destruct (sys_run evs σ1) as [σ2 a2]. simpl in *.
  intros Hin. apply in_app_or in Hin as [Hin|Hin]; [|by apply IH].
  destruct (Hsend Hin) as (i & pc & inp & _ & _ & Hstep).
  apply worker_step_sends in Hstep as (_ & _ & [rest Hq] & _).
  destruct Hwf as [Hqs _]. pose proof (queues_ok_queue_of ch (lim σ) Hqs) as Hall.
  rewrite Hq in Hall. by apply Forall_cons in Hall as [Hm _].
Qed.

(** C5: a failed send increments the retry count and puts the message
    back at the head of the queue while the new count is below 3, and drops
    it with a log line otherwise; no run of the event loop hands a message
    to the transport once it has failed three times; a worker alone on a
    quiet channel whose only message fails three times attempts it exactly
    three times and drops it, and one whose message fails twice and is then
    accepted delivers it exactly once. *)
Theorem retry_bound ch m s t1 t2 t3 t4 t5 r1 r2 r3 c1 c2 c3 :
  retry_count m = 0 → queue_of s ch = [m] → ch ∉ processing_channels s →
  quiet ch t1 s → t1 <= t2 → t2 <= t3 →
  transient r1 → transient r2 → transient r3 →
  let m1 := with_retry_count m 1 in
  let m2 := with_retry_count m 2 in
  let m3 := with_retry_count m 3 in
  (∀ m0 s0,
     handle_failure ch m0 s0 =
       if bool_decide (retry_count m0 + 1 < 3)
       then ((WDelay, []),
             set_queue ch (with_retry_count m0 (retry_count m0 + 1) :: queue_of s0 ch) s0)
       else ((WDelay,
              [LogRetriesExhausted (with_retry_count m0 (retry_count m0 + 1))]), s0)) ∧
  (∀ evs c m0 t, In (ActSend c m0 t) (sys_run evs sys_init).2 →
                 0 <= retry_count m0 < 3) ∧
  (let r := worker_run [wake t1; answer r1 c1; wake t2; answer r2 c2;
                        wake t3; answer r3 c3; wake t4; wake t5] ch WStart s in
   r.1 = (WDone, [ActSend ch m t1; LogSendError; ActSend ch m1 t2; LogSendError;
                  ActSend ch m2 t3; LogSendError; LogRetriesExhausted m3]) ∧
   queue_of r.2 ch = []) ∧
  (let r := worker_run [wake t1; answer r1 c1; wake t2; answer r2 c2;
                        wake t3; answer Sent c3; wake t4; wake t5] ch WStart s in
   r.1 = (WDone, [ActSend ch m t1; LogSendError; ActSend ch m1 t2; LogSendError;
                  ActSend ch m2 t3; ActDelivered ch m2] ++
                 match callback m with Some cb => [ActCallback cb] | None => [] end) ∧
   queue_of r.2 ch = []).
Proof.
  intros Hrc Hq Hfree Hquiet H12 H23 Hr1 Hr2 Hr3 m1 m2 m3.
  split; [apply handle_failure_state|].
  split; [intros evs c m0 t; apply sends_bounded, retries_wf_init|].
  destruct (failed_attempt ch m [] t1 r1 c1 s WStart) as (s1 & Hquiet1 & Hq1 & E1);
    [by right|done|done|done|].
  rewrite Hrc in Hq1, E1. change (0 + 1) with 1 in Hq1, E1.
  rewrite bool_decide_true in Hq1, E1 by lia. fold m1 in Hq1.
  destruct (failed_attempt ch m1 [] t2 r2 c2 s1 WDelay) as (s2 & Hquiet2 & Hq2 & E2);
    [by left|by eapply quiet_later|done|done|].
  change (retry_count m1 + 1) with 2 in Hq2, E2.
  change (with_retry_count m1 2) with m2 in Hq2, E2.
  rewrite bool_decide_true in Hq2, E2 by lia.
  assert (Hquiet3 : quiet ch t3 s2) by by eapply quiet_later.
  split.
  - destruct (failed_attempt ch m2 [] t3 r3 c3 s2 WDelay) as (s3 & _ & Hq3 & E3);
      [by left|done|done|done|].
    change (retry_count m2 + 1) with 3 in Hq3, E3.
    change (with_retry_count m2 3) with m3 in E3.
    rewrite bool_decide_false in Hq3, E3 by lia.
    destruct (drained ch t4 t5 s3 WDelay Hq3) as [Hd1 Hd2]; [by left|].
    cbv zeta. rewrite E1, E2, E3. cbn [fst snd]. rewrite Hd2.
    destruct (worker_run [wake t4; wake t5] ch WDelay s3) as [[pc a] s4].
    simpl in *. by simplify_eq.
  - destruct (successful_attempt ch m2 t3 c3 t4 t5 s2 Hquiet3 Hq2) as [Hs1 Hs2].
    cbv zeta. rewrite E1, E2. cbn [fst snd]. rewrite Hs2.
    destruct (worker_run _ ch WDelay s2) as [[pc a] s4].
    simpl in *. by simplify_eq.
Qed.

(** ** Further properties of the limiter *)

(** *** What a send presupposes *)

Lemma loop_head_send_limits ch t s c m t' :
  In (ActSend c m t') (loop_head ch t s).1.2 →
  within_limits ch t s ∧
  ∃ rest, queue_of s ch = m :: rest ∧ queue_of (loop_head ch t s).2 ch = rest.
Proof.
  destruct (loop_head_cases ch t s)
    as [[_ ->]|[(_&_& ->)|[(_&_&_& ->)|(m0&rest&Hq&Hcan&Hlim& ->)]]]; simpl; try done.
  intros [Heq|[]]. injection Heq as <- <- <-.
  apply can_send_true in Hcan as [Hw Hl].
  apply globally_limited_false in Hlim as [Hg _].
  rewrite can_send_state in Hg. simpl in Hg.
  split; [by repeat split|]. exists rest. by rewrite queue_of_set_queue.
Qed.

Lemma worker_step_send_limits ch pc inp s c m t :
  In (ActSend c m t) (_process_channel_queue ch pc inp s).1.2 →
  within_limits ch t s ∧
  ∃ rest, queue_of s ch = m :: rest ∧
          queue_of (_process_channel_queue ch pc inp s).2 ch = rest.
Proof.
  intros Hin.
  destruct (worker_step_sends ch pc inp s c m t Hin) as (-> & -> & _ & _ & [->| ->]).
  - simpl in *. unfold worker_enter in *. revert Hin. run.
    case_bool_decide; simpl; [done|].
    pose proof (dd_get_lookup (channel_queues s) ch ch) as Hdd.
    destruct (dd_get (channel_queues s) ch) as [q cq1]. simpl in *.
    destruct (channel_found inp); simpl; [|intuition discriminate].
    intros Hin. apply loop_head_send_limits in Hin as [Hlim [rest [Hq Hq']]].
    split; [exact Hlim|]. exists rest. split; [|exact Hq'].
    rewrite <- Hq. unfold queue_of. simpl. by rewrite Hdd.
  - simpl in *. by apply loop_head_send_limits in Hin.
Qed.

(** X1: whenever a step of the event loop hands a message to the
    transport at clock [t], the channel's window purged at [t] holds fewer
    than 5 timestamps, the channel's last recorded send is at least 0.2 s
    old, and the global window purged at [t] holds fewer than 50. *)
Theorem sends_respect_limits ev σ ch m t :
  In (ActSend ch m t) (sys_exec ev σ).2 → within_limits ch t (lim σ).
Proof.
  intros Hin. apply sys_exec_sends in Hin as (i & pc & inp & _ & _ & Hin).
  by apply worker_step_send_limits in Hin as [Hlim _].
Qed.

(** X2: a send always takes the message at the head of its channel's queue
    and leaves the rest of that queue in place. *)
Theorem sends_take_queue_head ev σ ch m t :
  In (ActSend ch m t) (sys_exec ev σ).2 →
  ∃ rest, queue_of (lim σ) ch = m :: rest ∧
          queue_of (lim (sys_exec ev σ).1) ch = rest.
Proof.
  intros Hin. destruct (sys_exec_sends ev σ ch m t Hin) as (i & pc & inp & -> & Hi & Hstep).
  apply worker_step_send_limits in Hstep as [_ [rest [Hq Hq']]].
  exists rest. split; [exact Hq|]. simpl. rewrite Hi.
  by destruct (_process_channel_queue ch pc inp (lim σ)) as [r l].
Qed.


(** *** The processing set and its holders *)

Lemma claims_exact_spawn σ l' chs :
  processing_channels l' = processing_channels (lim σ) →
  claims_exact σ → claims_exact {| lim := l'; tasks := tasks σ ++ spawn chs |}.
Proof.
  intros HP Hex ch Hch. simpl in Hch. rewrite HP in Hch.
  destruct (Hex ch Hch) as [i Hi]. exists i.
  destruct σ as [l ts]. by eapply holds_claim_spawn.
Qed.

Lemma claims_exact_update σ i ch pc pc' l' :
  claims_exact σ →
  tasks σ !! i = Some (ch, pc) →
  (∀ c, c ∈ processing_channels l' →
     (c ∈ processing_channels (lim σ) ∧
      (c ≠ ch ∨ holding pc' = true ∨ holding pc = false)) ∨
     (c = ch ∧ holding pc' = true)) →
  claims_exact {| lim := l'; tasks := <[i := (ch, pc')]> (tasks σ) |}.
Proof.
  intros Hex Hi Hstep c Hc.
  assert (Hlt : (i < length (tasks σ))%nat) by by eapply lookup_lt_Some.
  assert (Hself : holding pc' = true →
    holds_claim {| lim := l'; tasks := <[i := (ch, pc')]> (tasks σ) |} i ch).
  { intros Hp. exists pc'. simpl. by rewrite list_lookup_insert_eq. }
  destruct (Hstep c Hc) as [[HcP Hside]|[-> Hp]]; [|exists i; by apply Hself].
  destruct (Hex c HcP) as (j & q & Hj & Hq).
  destruct (decide (j = i)) as [->|Hne].
  - rewrite Hi in Hj. injection Hj as <- <-. exists i. apply Hself.
    destruct Hside as [?|[?|?]]; [done|done|congruence].
  - exists j, q. simpl. by rewrite list_lookup_insert_ne.
Qed.

Lemma claims_exact_exec ev σ : claims_exact σ → claims_exact (sys_exec ev σ).1.
Proof.
  intros Hex. destruct ev as [x|clock| |i inp|i|clock]; simpl.
  - pose proof (queue_message_frame (sub_channel x) (sub_embed x) (sub_file x)
      (sub_content x) (sub_priority x) (sub_callback x) (sub_hash_clock x)
      (sub_time x) (sub_utc x) (lim σ)) as [HP _].
    unfold submit. destruct (queue_message _ _ _ _ _ _ _ _ _ _) as [o l]. simpl in *.
    rewrite <- (app_nil_r (tasks σ)). by apply (claims_exact_spawn σ l []).
  - pose proof (process_queues_frame clock (lim σ)) as [HP _].
    destruct (_process_queues clock (lim σ)) as [r l]. simpl in *.
    by apply claims_exact_spawn.
  - by apply claims_exact_spawn.
  - destruct (tasks σ !! i) as [[ch pc]|] eqn:Hi; [|done].
    pose proof (worker_step_claim ch pc inp (lim σ)) as Hstep.
    destruct (_process_channel_queue ch pc inp (lim σ)) as [[pc' acts] l]. simpl in *.
    apply (claims_exact_update σ i ch pc pc' l Hex Hi). intros c Hc.
    assert (Hrel : ∀ P : gset Z, c ∈ P ∖ {[ch]} → c ∈ P ∧ c ≠ ch).
    { intros P HP. apply elem_of_difference in HP as [HP Hn].
      by rewrite elem_of_singleton in Hn. }
    destruct pc; simpl in *;
      [ destruct Hstep as [[_ Hs]|[Hfree [[Hp Hs]|[-> Hs]]]];
          [ simplify_eq/=; left; auto
          | rewrite Hs in Hc; apply elem_of_union in Hc as [Hc|Hc];
              [apply elem_of_singleton in Hc; right; by split|left; auto]
          | rewrite Hs in Hc; apply Hrel in Hc as [Hc Hn];
            apply elem_of_union in Hc as [Hc|Hc];
              [by apply elem_of_singleton in Hc|left; auto] ]
      | (destruct Hstep as [[Hp Hs]|[-> Hs]]; rewrite Hs in Hc;
           [left; auto|apply Hrel in Hc as [Hc Hn]; left; auto]) ..
      | simplify_eq/=; left; auto ].
  - destruct (tasks σ !! i) as [[ch pc]|] eqn:Hi; [|done].
    unfold worker_cancel. destruct (holding pc) eqn:Hpc; run.
    + apply (claims_exact_update σ i ch pc WDone _ Hex Hi). simpl. intros c Hc.
      apply elem_of_difference in Hc as [Hc Hn]. rewrite elem_of_singleton in Hn.
      left. auto.
    + apply (claims_exact_update σ i ch pc WDone _ Hex Hi). simpl. intros c Hc.
      left. auto.
  - rewrite <- (app_nil_r (tasks σ)). by apply (claims_exact_spawn σ (lim σ) []).
Qed.

Lemma claims_exact_run evs σ : claims_exact σ → claims_exact (sys_run evs σ).1.
Proof.
  revert σ. induction evs as [|ev evs IH]; intros σ Hex; simpl; [done|].
  pose proof (claims_exact_exec ev σ Hex) as H1.
  destruct (sys_exec ev σ) as [σ1 a1]. specialize (IH σ1 H1).
  by destruct (sys_run evs σ1) as [σ2 a2].
Qed.

(** X3: in every state the event loop can reach, a channel is in
    [processing_channels] exactly when some worker task holds its claim: a
    finished or cancelled worker never leaves its channel behind in the
    set. *)
Theorem no_leaked_claim evs ch :
  let σ := (sys_run evs sys_init).1 in
  ch ∈ processing_channels (lim σ) ↔ ∃ i, holds_claim σ i ch.
Proof.
  intros σ. split.
  - apply (claims_exact_run evs sys_init). intros c Hc. simpl in Hc.
    by apply not_elem_of_empty in Hc.
  - intros [i Hi]. destruct (claims_wf_run evs sys_init claims_wf_init) as [_ Hin].
    by apply (Hin i).
Qed.

(** X4: a worker that starts on a free channel the bot cannot find empties
    the channel's queue without sending anything or calling any callback,
    logs it, and releases the claim; the other channels' queues, the
    windows, the last-sent times and the dedup entries stay as they were. *)
Theorem channel_not_found_clears_queue ch inp s :
  channel_found inp = false → ch ∉ processing_channels s →
  let r := _process_channel_queue ch WStart inp s in
  r.1 = (WDone, [LogChannelNotFound ch]) ∧
  queue_of r.2 ch = [] ∧
  (∀ k, k ≠ ch → queue_of r.2 k = queue_of s k) ∧
  processing_channels r.2 = processing_channels s ∧
  global_message_times r.2 = global_message_times s ∧
  channel_message_count r.2 = channel_message_count s ∧
  channel_last_sent r.2 = channel_last_sent s ∧
  recent_embeds r.2 = recent_embeds s.
Proof.
  intros Hfound Hfree. simpl. unfold worker_enter. run.
  rewrite bool_decide_false by done. rewrite Hfound.
  pose proof (dd_get_lookup (channel_queues s) ch) as Hdd.
  destruct (dd_get (channel_queues s) ch) as [q cq1]. simpl in *.
  split; [done|]. split; [unfold queue_of; simpl; by rewrite lookup_insert_eq|].
  split; [|split; [|done]].
  - intros k Hk. unfold queue_of. simpl. by rewrite lookup_insert_ne, Hdd.
  - apply set_eq. intros c. rewrite elem_of_difference, elem_of_union, elem_of_singleton.
    split; [by intros [[->|Hc] Hn]|]. intros Hc. split; [by right|by intros ->].
Qed.


(** *** Channels do not interfere *)

Lemma dd_get_lookup_ne {V} (m : gmap Z (list V)) ch k :
  k ≠ ch → (dd_get m ch).2 !! k = m !! k.
Proof.
  intros Hk. unfold dd_get. destruct (m !! ch); simpl; [done|].
  by rewrite lookup_insert_ne.
Qed.

Lemma agree_off_refl ch s : agree_off ch s s.
Proof. split; [done|]. by intros k Hk. Qed.

Lemma agree_off_trans ch s1 s2 s3 :
  agree_off ch s1 s2 → agree_off ch s2 s3 → agree_off ch s1 s3.
Proof.
  intros [He1 H1] [He2 H2]. split; [congruence|]. intros k Hk.
  destruct (H1 k Hk) as (?&?&?&?), (H2 k Hk) as (?&?&?&?).
  repeat split; try congruence; tauto.
Qed.

Ltac other_channel :=
  split; [done|]; intros k Hk; simpl;
  rewrite ?lookup_insert_ne by done;
  rewrite ?elem_of_difference, ?elem_of_union, ?elem_of_singleton;
  intuition.

Lemma loop_head_agree ch t s : agree_off ch s (loop_head ch t s).2.
Proof.
  destruct (loop_head_cases ch t s)
    as [[_ ->]|[(_&_& ->)|[(_&_&_& ->)|(m0&rest&_&_&_& ->)]]];
    rewrite ?globally_limited_state, ?can_send_state; other_channel.
Qed.

Lemma handle_failure_agree ch m s : agree_off ch s (handle_failure ch m s).2.
Proof.
  rewrite handle_failure_state. case_bool_decide; [other_channel|apply agree_off_refl].
Qed.

Lemma process_channel_queue_agree ch pc inp s :
  agree_off ch s (_process_channel_queue ch pc inp s).2.
Proof.
  destruct pc as [|m t|m t|m| |]; simpl.
  - unfold worker_enter. run. case_bool_decide; simpl; [apply agree_off_refl|].
    pose proof (dd_get_lookup_ne (channel_queues s) ch) as Hdd.
    destruct (dd_get (channel_queues s) ch) as [q cq1]. simpl in *.
    destruct (channel_found inp); simpl.
    + eapply agree_off_trans; [|apply loop_head_agree].
      split; [done|]. intros k Hk. simpl. rewrite Hdd by done.
      rewrite elem_of_union, elem_of_singleton. intuition.
    + split; [done|]. intros k Hk. simpl. rewrite lookup_insert_ne, Hdd by done.
      rewrite elem_of_difference, elem_of_union, elem_of_singleton. intuition.
  - rewrite on_send_result_cases. destruct (result inp) as [|ra g| |]; simpl.
    + rewrite record_success_state. other_channel.
    + destruct g; [other_channel|apply agree_off_refl].
    + apply handle_failure_agree.
    + apply handle_failure_agree.
  - apply handle_failure_agree.
  - apply agree_off_refl.
  - apply loop_head_agree.
  - apply agree_off_refl.
Qed.

(** X5: resuming or cancelling a worker task of channel [ch], at whatever
    point and whatever the transport answers, leaves every other channel's
    queue, window, last-sent time and membership of the processing set, and
    all dedup entries, exactly as they were. *)
Theorem worker_touches_own_channel_only ev σ i ch pc :
  tasks σ !! i = Some (ch, pc) →
  (∃ inp, ev = EvResume i inp) ∨ ev = EvCancel i →
  agree_off ch (lim σ) (lim (sys_exec ev σ).1).
Proof.
  intros Hi [[inp ->]| ->]; simpl; rewrite Hi.
  - pose proof (process_channel_queue_agree ch pc inp (lim σ)) as H.
    by destruct (_process_channel_queue ch pc inp (lim σ)) as [r l].
  - unfold worker_cancel. destruct (holding pc); run; [other_channel|].
    apply agree_off_refl.
Qed.

(** X6: a call to [queue_message] for channel [ch] changes nothing but
    that channel's queue and dedup list: the queue and the dedup entries of
    every other channel, the processing set, both windows, the last-sent
    times and the global deadline are as before. *)
Theorem submission_touches_own_channel_only ch e f c p cb hc t u s k :
  k ≠ ch →
  let s' := (queue_message ch e f c p cb hc t u s).2 in
  channel_queues s' !! k = channel_queues s !! k ∧
  recent_embeds s' !! k = recent_embeds s !! k ∧
  processing_channels s' = processing_channels s ∧
  global_rate_limit_reset s' = global_rate_limit_reset s ∧
  global_message_times s' = global_message_times s ∧
  channel_message_count s' = channel_message_count s ∧
  channel_last_sent s' = channel_last_sent s.
Proof.
  intros Hk s'.
  split; [|split; [|apply (queue_message_frame ch e f c p cb hc t u s)]];
    subst s'; unfold queue_message; run.
  - destruct (dd_get (recent_embeds s) ch) as [recent re1]. simpl.
    destruct (remove_old_hashes t recent) as [kept|]; simpl; [|done].
    destruct (str_in _ kept); simpl; [done|].
    pose proof (dd_get_lookup_ne (channel_queues s) ch k Hk) as Hdd.
    destruct (dd_get (channel_queues s) ch) as [queue cq1]. simpl in *.
    by rewrite lookup_insert_ne.
  - pose proof (dd_get_lookup_ne (recent_embeds s) ch k Hk) as Hdd.
    destruct (dd_get (recent_embeds s) ch) as [recent re1]. simpl in *.
    destruct (remove_old_hashes t recent) as [kept|]; simpl; [|done].
    destruct (str_in _ kept); simpl; [by rewrite lookup_insert_ne|].
    destruct (dd_get (channel_queues s) ch) as [queue cq1]. simpl.
    by rewrite lookup_insert_ne.
Qed.


(** *** Window capacity *)

Lemma deque_append_length_le maxlen d x :
  (0 < maxlen)%nat → (length d ≤ maxlen)%nat →
  (length (deque_append maxlen d x) ≤ maxlen)%nat.
Proof.
  intros Hpos Hd. unfold deque_append.
  destruct (maxlen <=? length d)%nat eqn:E; rewrite length_app; simpl.
  - destruct d; simpl in *; lia.
  - apply Nat.leb_gt in E. lia.
Qed.

Lemma windows_bounded_frame s s' :
  global_message_times s' = global_message_times s →
  channel_message_count s' = channel_message_count s →
  windows_bounded s → windows_bounded s'.
Proof. unfold windows_bounded. by intros -> ->. Qed.

Lemma windows_bounded_channel ch s :
  windows_bounded s →
  (length (default [] (channel_message_count s !! ch)) ≤ CHANNEL_RATE_LIMIT)%nat.
Proof.
  intros [_ Hc]. destruct (channel_message_count s !! ch) as [w|] eqn:E; simpl.
  - by apply (Hc ch).
  - unfold CHANNEL_RATE_LIMIT. lia.
Qed.

Lemma windows_bounded_can_send ch t s :
  windows_bounded s → windows_bounded (_can_send_to_channel ch t s).2.
Proof.
  intros Hs. rewrite can_send_state. split; [apply Hs|]. simpl.
  intros k w. rewrite lookup_insert. case_decide; [|apply Hs].
  intros [= <-]. pose proof (windows_bounded_channel ch s Hs).
  pose proof (purge_window_length t 5000 (default [] (channel_message_count s !! ch))).
  lia.
Qed.

Lemma windows_bounded_globally_limited t s :
  windows_bounded s → windows_bounded (_is_globally_rate_limited t s).2.
Proof.
  intros [Hg Hc]. rewrite globally_limited_state. split; [|exact Hc]. simpl.
  pose proof (purge_window_length t 1000 (global_message_times s)). lia.
Qed.

Lemma windows_bounded_loop_head ch t s :
  windows_bounded s → windows_bounded (loop_head ch t s).2.
Proof.
  intros Hs.
  pose proof (windows_bounded_can_send ch t s Hs) as H1.
  pose proof (windows_bounded_globally_limited t _ H1) as H2.
  destruct (loop_head_cases ch t s)
    as [[_ ->]|[(_&_& ->)|[(_&_&_& ->)|(m0&rest&_&_&_& ->)]]]; simpl.
  - by eapply windows_bounded_frame.
  - by eapply windows_bounded_frame; [| |exact H1].
  - by eapply windows_bounded_frame; [| |exact H2].
  - by eapply windows_bounded_frame; [| |exact H2].
Qed.

Lemma windows_bounded_handle_failure ch m s :
  windows_bounded s → windows_bounded (handle_failure ch m s).2.
Proof.
  intros Hs. rewrite handle_failure_state.
  case_bool_decide; [by eapply windows_bounded_frame|done].
Qed.

Lemma windows_bounded_step ch pc inp s :
  windows_bounded s → windows_bounded (_process_channel_queue ch pc inp s).2.
Proof.
  intros Hs. destruct pc as [|m t|m t|m| |]; simpl.
  - unfold worker_enter. run. case_bool_decide; simpl; [done|].
    destruct (dd_get (channel_queues s) ch) as [q cq1]. simpl.
    destruct (channel_found inp); simpl.
    + apply windows_bounded_loop_head. by eapply windows_bounded_frame.
    + by eapply windows_bounded_frame.
  - rewrite on_send_result_cases. destruct (result inp) as [|ra g| |]; simpl.
    + rewrite record_success_state. destruct Hs as [Hg Hc]. split; simpl.
      * apply deque_append_length_le; [unfold GLOBAL_RATE_LIMIT; lia|done].
      * intros k w. rewrite lookup_insert. case_decide; [|apply Hc].
        intros [= <-]. apply deque_append_length_le;
          [unfold CHANNEL_RATE_LIMIT; lia|].
        by apply windows_bounded_channel.
    + destruct g; [by eapply windows_bounded_frame|done].
    + by apply windows_bounded_handle_failure.
    + by apply windows_bounded_handle_failure.
  - by apply windows_bounded_handle_failure.
  - done.
  - by apply windows_bounded_loop_head.
  - done.
Qed.

Lemma windows_bounded_scan keys t s :
  windows_bounded s → windows_bounded (scan_channels keys t s).2.
Proof.
  revert s. induction keys as [|ch keys IH]; intros s Hs; simpl; [done|].
  run. destruct (queue_of s ch); [by apply IH|].
  case_bool_decide; [by apply IH|].
  pose proof (windows_bounded_can_send ch t s Hs) as H1.
  destruct (_can_send_to_channel ch t s) as [can s1]. simpl in H1.
  specialize (IH s1 H1). by destruct (scan_channels keys t s1) as [started s2].
Qed.

Lemma windows_bounded_process_queues t s :
  windows_bounded s → windows_bounded (_process_queues t s).2.
Proof.
  intros Hs. unfold _process_queues. run.
  pose proof (windows_bounded_globally_limited t s Hs) as H1.
  destruct (_is_globally_rate_limited t s) as [limited s1]. simpl in H1.
  destruct limited; simpl; [done|].
  pose proof (windows_bounded_scan (map_to_list (channel_queues s1)).*1 t s1 H1) as H2.
  destruct (scan_channels _ t s1) as [started s2]. simpl in H2.
  by destruct started.
Qed.

Lemma windows_bounded_exec ev σ :
  windows_bounded (lim σ) → windows_bounded (lim (sys_exec ev σ).1).
Proof.
  intros Hs. destruct ev as [x|clock| |i inp|i|clock]; simpl.
  - pose proof (queue_message_frame (sub_channel x) (sub_embed x) (sub_file x)
      (sub_content x) (sub_priority x) (sub_callback x) (sub_hash_clock x)
      (sub_time x) (sub_utc x) (lim σ)) as (_ & _ & Hg & Hc & _).
    unfold submit. destruct (queue_message _ _ _ _ _ _ _ _ _ _) as [o l]. simpl in *.
    by eapply windows_bounded_frame.
  - pose proof (windows_bounded_process_queues clock (lim σ) Hs) as H1.
    by destruct (_process_queues clock (lim σ)) as [r l].
  - done.
  - destruct (tasks σ !! i) as [[ch pc]|]; [|done].
    pose proof (windows_bounded_step ch pc inp (lim σ) Hs) as H1.
    by destruct (_process_channel_queue ch pc inp (lim σ)) as [r l].
  - destruct (tasks σ !! i) as [[ch pc]|]; [|done].
    unfold worker_cancel. destruct (holding pc); run; done.
  - done.
Qed.

(** X7: in every state the event loop can reach, the global window holds
    at most 50 timestamps and every channel's window at most 5. *)
Theorem windows_never_exceed_capacity evs :
  windows_bounded (lim (sys_run evs sys_init).1).
Proof.
  assert (H : ∀ σ, windows_bounded (lim σ) → windows_bounded (lim (sys_run evs σ).1)).
  { induction evs as [|ev evs IH]; intros σ Hs; simpl; [done|].
    pose proof (windows_bounded_exec ev σ Hs) as H1.
    destruct (sys_exec ev σ) as [σ1 a1]. specialize (IH σ1 H1).
    by destruct (sys_run evs σ1) as [σ2 a2]. }
  apply H. split; simpl; [lia|]. intros ch w. by rewrite lookup_empty.
Qed.


(** *** The channel window never drops a timestamp *)

Lemma step_keeps_room ch pc inp s :
  (is_Some (in_flight pc) → has_room ch s) →
  is_Some (in_flight (_process_channel_queue ch pc inp s).1.1) →
  has_room ch (_process_channel_queue ch pc inp s).2.
Proof.
  assert (Hloop : ∀ t s0, is_Some (in_flight (loop_head ch t s0).1.1) →
                          has_room ch (loop_head ch t s0).2).
  { intros t s0.
    destruct (loop_head_cases ch t s0)
      as [[_ ->]|[(_&_& ->)|[(_&_&_& ->)|(m0&rest&_&Hcan&_& ->)]]]; simpl;
      try by intros [? [=]].
    intros _. apply can_send_true in Hcan as [Hw _].
    rewrite globally_limited_state, can_send_state. unfold has_room. simpl.
    by rewrite lookup_insert_eq. }
  assert (Hfail : ∀ m s0, ¬ is_Some (in_flight (handle_failure ch m s0).1.1)).
  { intros m s0. rewrite handle_failure_state. by case_bool_decide; intros [? [=]]. }
  intros Hroom. destruct pc as [|m t|m t|m| |]; simpl.
  - unfold worker_enter. run. case_bool_decide; simpl; [by intros [? [=]]|].
    destruct (dd_get (channel_queues s) ch) as [q cq1]. simpl.
    destruct (channel_found inp); simpl; [apply Hloop|by intros [? [=]]].
  - rewrite on_send_result_cases. destruct (result inp) as [|ra g| |]; simpl.
    + rewrite record_success_state. simpl. by destruct (callback m); intros [? [=]].
    + intros _. destruct g; apply Hroom; by eexists.
    + intros H. by apply Hfail in H.
    + intros H. by apply Hfail in H.
  - intros H. by apply Hfail in H.
  - by intros [? [=]].
  - apply Hloop.
  - by intros [? [=]].
Qed.

Lemma can_send_shrinks ch t s c :
  has_room c s → has_room c (_can_send_to_channel ch t s).2.
Proof.
  unfold has_room. rewrite can_send_state. simpl. rewrite lookup_insert.
  case_decide as E; [|done]. subst c. simpl.
  pose proof (purge_window_length t 5000 (default [] (channel_message_count s !! ch))).
  lia.
Qed.

Lemma scan_channels_shrinks keys t s c :
  has_room c s → has_room c (scan_channels keys t s).2.
Proof.
  revert s. induction keys as [|ch keys IH]; intros s Hs; simpl; [done|].
  run. destruct (queue_of s ch); [by apply IH|].
  case_bool_decide; [by apply IH|].
  pose proof (can_send_shrinks ch t s c Hs) as H1.
  destruct (_can_send_to_channel ch t s) as [can s1]. simpl in H1.
  specialize (IH s1 H1). by destruct (scan_channels keys t s1) as [started s2].
Qed.

Lemma process_queues_shrinks t s c :
  has_room c s → has_room c (_process_queues t s).2.
Proof.
  intros Hs. unfold _process_queues. run.
  assert (H1 : has_room c (_is_globally_rate_limited t s).2)
    by by rewrite globally_limited_state.
  destruct (_is_globally_rate_limited t s) as [limited s1]. simpl in H1.
  destruct limited; simpl; [done|].
  pose proof (scan_channels_shrinks (map_to_list (channel_queues s1)).*1 t s1 c H1) as H2.
  destruct (scan_channels _ t s1) as [started s2]. simpl in H2.
  by destruct started.
Qed.

Lemma sending_has_room_exec ev σ :
  claims_wf σ → sending_has_room σ → sending_has_room (sys_exec ev σ).1.
Proof.
  intros [Huniq Hin] Hroom.
  assert (Hspawn : ∀ l chs, (∀ c, has_room c (lim σ) → has_room c l) →
    sending_has_room {| lim := l; tasks := tasks σ ++ spawn chs |}).
  { intros l chs Hl i ch pc Hi Hpc. simpl in *. apply Hl.
    apply lookup_app_Some in Hi as [Hi|[_ Hi]]; [by eapply Hroom|].
    unfold spawn in Hi. rewrite list_lookup_fmap in Hi.
    destruct (chs !! _); simplify_eq/=. by destruct Hpc as [? [=]]. }
  assert (Hholds : ∀ j c q, tasks σ !! j = Some (c, q) → is_Some (in_flight q) →
                            holds_claim σ j c).
  { intros j c q Hj Hq. exists q. split; [done|].
    by destruct q; try done; destruct Hq as [? [=]]. }
  destruct ev as [x|clock| |i inp|i|clock]; simpl.
  - pose proof (queue_message_frame (sub_channel x) (sub_embed x) (sub_file x)
      (sub_content x) (sub_priority x) (sub_callback x) (sub_hash_clock x)
      (sub_time x) (sub_utc x) (lim σ)) as (_ & _ & _ & Hc & _).
    unfold submit. destruct (queue_message _ _ _ _ _ _ _ _ _ _) as [o l]. simpl in *.
    rewrite <- (app_nil_r (tasks σ)). apply (Hspawn l []).
    intros c. unfold has_room. by rewrite Hc.
  - pose proof (process_queues_shrinks clock (lim σ)) as Hs.
    destruct (_process_queues clock (lim σ)) as [r l]. simpl in *.
    by apply Hspawn.
  - by apply Hspawn.
  - destruct (tasks σ !! i) as [[ch pc]|] eqn:Hi; [|done].
    pose proof (step_keeps_room ch pc inp (lim σ)) as Hself.
    pose proof (process_channel_queue_agree ch pc inp (lim σ)) as [_ Hoff].
    pose proof (worker_step_claim ch pc inp (lim σ)) as Hclaim.
    destruct (_process_channel_queue ch pc inp (lim σ)) as [[pc' acts] l] eqn:E.
    simpl in *. intros j c q Hj Hq. simpl in *.
    destruct (decide (j = i)) as [->|Hne].
    + apply list_lookup_insert_Some in Hj as [[_ [[= <- <-] _]]|[? _]]; [|done].
      apply Hself; [|done]. intros Hpc. by apply (Hroom i ch pc).
    + rewrite list_lookup_insert_ne in Hj by done.
      pose proof (Hroom j c q Hj Hq) as Hc.
      destruct (decide (c = ch)) as [->|Hc'].
      * pose proof (Hholds j ch q Hj Hq) as Hjh.
        destruct (holding pc) eqn:Hpc.
        { destruct Hne. apply (Huniq j i ch); [done|]. by exists pc. }
        destruct pc; try done; simpl in Hclaim.
        -- destruct Hclaim as [[_ Hs]|[Hfree _]]; [by simplify_eq/=|].
           destruct Hfree. by apply (Hin j).
        -- by simplify_eq/=.
      * unfold has_room in *. destruct (Hoff c Hc') as (_ & Hw & _). by rewrite Hw.
  - destruct (tasks σ !! i) as [[ch pc]|] eqn:Hi; [|done].
    unfold worker_cancel.
    assert (Hgoal : ∀ l, channel_message_count l = channel_message_count (lim σ) →
      sending_has_room {| lim := l; tasks := <[i := (ch, WDone)]> (tasks σ) |}).
    { intros l Hl j c q Hj Hq. simpl in *. unfold has_room. rewrite Hl.
      destruct (decide (j = i)) as [->|Hne].
      - apply list_lookup_insert_Some in Hj as [[_ [[= <- <-] _]]|[? _]]; [|done].
        by destruct Hq as [? [=]].
      - rewrite list_lookup_insert_ne in Hj by done. by apply (Hroom j c q). }
    destruct (holding pc); run; by apply Hgoal.
  - rewrite <- (app_nil_r (tasks σ)). by apply (Hspawn (lim σ) []).
Qed.

Lemma sending_has_room_run evs σ :
  claims_wf σ → sending_has_room σ → sending_has_room (sys_run evs σ).1.
Proof.
  revert σ. induction evs as [|ev evs IH]; intros σ Hwf Hroom; simpl; [done|].
  pose proof (claims_wf_exec ev σ Hwf) as Hwf1.
  pose proof (sending_has_room_exec ev σ Hwf Hroom) as Hroom1.
  destruct (sys_exec ev σ) as [σ1 a1]. specialize (IH σ1 Hwf1 Hroom1).
  by destruct (sys_run evs σ1) as [σ2 a2].
Qed.

(** X8: in every state the event loop can reach, a channel whose worker
    awaits a send has fewer than 5 timestamps in its window, so recording
    the send appends the timestamp without the bounded deque dropping an
    older one. *)
Theorem channel_window_never_drops evs i ch m t :
  let σ := (sys_run evs sys_init).1 in
  tasks σ !! i = Some (ch, WSend m t) →
  has_room ch (lim σ) ∧
  channel_message_count (record_success ch m t (lim σ)).2 !! ch =
    Some (default [] (channel_message_count (lim σ) !! ch) ++ [t]).
Proof.
  intros σ Hi.
  assert (Hroom : has_room ch (lim σ)).
  { apply (sending_has_room_run evs sys_init claims_wf_init) with (i := i) (pc := WSend m t).
    - intros j c q Hj. by destruct j.
    - exact Hi.
    - by eexists. }
  split; [exact Hroom|]. rewrite record_success_state. simpl.
  rewrite lookup_insert_eq. f_equal. unfold deque_append.
  unfold has_room in Hroom.
  destruct (CHANNEL_RATE_LIMIT <=? _)%nat eqn:E; [|done].
  apply Nat.leb_le in E. lia.
Qed.


(** *** The dedup list *)



(** *** Purging a window *)

(** X10: purging drops a prefix of the window made of timestamps older
    than the width and stops at the first one that is not; on a window in
    time order this removes exactly the timestamps older than the width. *)
Theorem purge_window_drops_old_prefix t w d :
  (∃ dropped, d = dropped ++ purge_window t w d ∧
              Forall (fun e => t - e > w) dropped) ∧
  (∀ e rest, purge_window t w d = e :: rest → t - e <= w) ∧
  (StronglySorted Z.le d →
   purge_window t w d = filter (fun e => t - e <= w) d).
Proof.
  split; [|split].
  - induction d as [|x d [dropped [Hd Hold]]]; simpl; [by exists []|].
    case_bool_decide.
    + exists (x :: dropped). split; [by rewrite <- app_comm_cons, <- Hd|by constructor].
    + by exists [].
  - induction d as [|x d IH]; simpl; [done|]. case_bool_decide; [done|].
    intros e rest [= <- <-]. lia.
  - induction 1 as [|x d Hd IH Hx]; simpl; [done|]. case_bool_decide as Hold.
    + rewrite filter_cons_False by lia. exact IH.
    + rewrite filter_cons_True by lia. f_equal.
      clear IH Hd. induction Hx as [|y d Hy Hx IH]; [done|].
      rewrite filter_cons_True by lia. by rewrite <- IH.
Qed.

(** *** The embed hash *)

(** X11: the hash of an embed depends only on its title and description
    (a missing one counting as empty), its number of fields and its footer
    text (a missing footer counting as an empty text): two embeds that
    agree on these hash alike, whatever their fields contain and whatever
    the clock; an embed whose footer has no text gets the clock reading as
    its hash. *)
Theorem embed_hash_reads_stable_fields :
  (∀ e1 e2 clock1 clock2,
     stable_fields e1 = stable_fields e2 → (stable_fields e1).2 ≠ None →
     _generate_embed_hash e1 clock1 = _generate_embed_hash e2 clock2) ∧
  (∀ e clock, (stable_fields e).2 = None → _generate_embed_hash e clock = str clock).
Proof.
  split.
  - intros e1 e2 c1 c2. unfold stable_fields, _generate_embed_hash, hash_parts.
    intros [= Ht Hd Hn Hf] Hsome. simpl in Hsome.
    rewrite Ht, Hd, Hn.
    destruct (embed_footer e1) as [f1|], (embed_footer e2) as [f2|]; simpl in *.
    + rewrite Hf. by destruct (footer_text f2).
    + rewrite Hf. done.
    + rewrite <- Hf. done.
    + done.
  - intros e clock. unfold stable_fields, _generate_embed_hash, hash_parts. simpl.
    destruct (embed_footer e) as [f|]; [|done]. by intros ->.
Qed.


(** *** Statistics are consistent *)

Lemma priority_name_inj p q : priority_name p = priority_name q → p = q.
Proof. by destruct p, q. Qed.

Lemma count_priority_lookup msgs counts p :
  foldl count_priority counts msgs !! priority_name p =
    match length (tier p msgs) with
    | O => counts !! priority_name p
    | S n => Some (default 0 (counts !! priority_name p) + S n)%nat
    end.
Proof.
  unfold tier. revert counts. induction msgs as [|m msgs IH]; intros counts; simpl; [done|].
  rewrite IH. rewrite filter_cons.
  destruct (decide (priority m = p)) as [Heq|Hne]; simpl.
  - subst p. unfold count_priority. rewrite lookup_insert_eq. simpl.
    destruct (length (filter _ msgs)); f_equal; lia.
  - unfold count_priority. rewrite lookup_insert_ne; [done|].
    intros H. by apply priority_name_inj in H.
Qed.

Lemma count_priority_keys msgs counts k :
  is_Some (foldl count_priority counts msgs !! k) →
  is_Some (counts !! k) ∨ ∃ p, k = priority_name p.
Proof.
  revert counts. induction msgs as [|m msgs IH]; intros counts; simpl; [by left|].
  intros H. apply IH in H as [H|H]; [|by right]. unfold count_priority in H.
  rewrite lookup_insert in H. case_decide; [right; eauto|by left].
Qed.

Lemma foldl_queues counts (qs : list (list QueuedMessage)) :
  foldl (fun c q => foldl count_priority c q) counts qs
    = foldl count_priority counts (concat qs).
Proof.
  revert counts. induction qs as [|q qs IH]; intros counts; simpl; [done|].
  by rewrite IH, foldl_app.
Qed.

Lemma total_length (qs : list (list QueuedMessage)) :
  foldr (fun q n => (length q + n)%nat) 0%nat qs = length (concat qs).
Proof. induction qs as [|q qs IH]; simpl; [done|]. by rewrite IH, length_app. Qed.

Lemma tiers_partition msgs :
  length msgs =
    (length (tier CRITICAL msgs) + length (tier HIGH msgs) +
     length (tier NORMAL msgs) + length (tier LOW msgs))%nat.
Proof.
  unfold tier. induction msgs as [|m msgs IH]; simpl; [done|].
  rewrite !filter_cons. destruct (priority m); simpl; lia.
Qed.

Lemma active_queues (qs : list (list QueuedMessage)) :
  (length (filter (fun q : list QueuedMessage => q ≠ []) qs) ≤ length (concat qs))%nat ∧
  (length (filter (fun q : list QueuedMessage => q ≠ []) qs) = 0%nat ↔
   length (concat qs) = 0%nat).
Proof.
  induction qs as [|q qs [IH1 IH2]]; simpl; [done|].
  rewrite length_app. destruct q as [|m q].
  - rewrite filter_cons_False by (intros H; by apply H). done.
  - rewrite filter_cons_True by done. simpl. split; [lia|]. split; lia.
Qed.

(** X12: the statistics agree with the queues and with each other: the
    total is the number of queued messages; the breakdown gives, for every
    priority, the number of queued messages of that priority, has no entry
    for a priority that does not occur and no other keys; its counts add up
    to the total; and the number of active channels is at most the total
    and is zero exactly when nothing is queued. *)
Theorem stats_are_consistent clock s :
  let r := (get_queue_stats clock s).1 in
  let count p := default 0%nat (priority_breakdown r !! priority_name p) in
  total_queued r = length (all_queued s) ∧
  (∀ p, count p = length (tier p (all_queued s))) ∧
  (∀ p, priority_breakdown r !! priority_name p = None ↔ tier p (all_queued s) = []) ∧
  (∀ k, is_Some (priority_breakdown r !! k) → ∃ p, k = priority_name p) ∧
  total_queued r = (count CRITICAL + count HIGH + count NORMAL + count LOW)%nat ∧
  (active_channels r ≤ total_queued r)%nat ∧
  (active_channels r = 0%nat ↔ total_queued r = 0%nat).
Proof.
  intros r count.
  assert (Ht : total_queued r = length (all_queued s)) by apply total_length.
  assert (Hb : priority_breakdown r = foldl count_priority ∅ (all_queued s))
    by apply foldl_queues.
  assert (Hc : ∀ p, count p = length (tier p (all_queued s))).
  { intros p. subst count. cbv beta. rewrite Hb, count_priority_lookup, lookup_empty.
    by destruct (length (tier p (all_queued s))). }
  split; [exact Ht|]. split; [exact Hc|]. split; [|split; [|split; [|split]]].
  - intros p. rewrite Hb, count_priority_lookup, lookup_empty.
    destruct (tier p (all_queued s)); simpl; [done|]. split; done.
  - intros k. rewrite Hb. intros H.
    apply count_priority_keys in H as [H|H]; [|done].
    rewrite lookup_empty in H. by destruct H.
  - rewrite !Hc, Ht. apply tiers_partition.
  - rewrite Ht. apply active_queues.
  - rewrite Ht. apply active_queues.
Qed.


(** *** The dispatcher and the shutdown flush *)

Lemma can_send_result_ext c t s1 s :
  channel_message_count s1 !! c = channel_message_count s !! c →
  channel_last_sent s1 !! c = channel_last_sent s !! c →
  (_can_send_to_channel c t s1).1 = (_can_send_to_channel c t s).1.
Proof.
  intros Hw Hl.
  pose proof (can_send_true c t s1) as H1. pose proof (can_send_true c t s) as H2.
  rewrite Hw, Hl in H1.
  destruct (_can_send_to_channel c t s1).1, (_can_send_to_channel c t s).1; try done.
  - symmetry. apply H2. by apply H1.
  - apply H1. by apply H2.
Qed.

Lemma scan_channels_sublist keys t s : (scan_channels keys t s).1 `sublist_of` keys.
Proof.
  revert s. induction keys as [|k keys IH]; intros s; simpl; [done|].
  run. destruct (queue_of s k); [by apply sublist_cons|].
  case_bool_decide; [by apply sublist_cons|].
  destruct (_can_send_to_channel k t s) as [can s1]. specialize (IH s1).
  destruct (scan_channels keys t s1) as [started s2]. simpl in *.
  destruct can; [by apply sublist_skip|by apply sublist_cons].
Qed.

Lemma scan_channels_started keys t s ch :
  NoDup keys →
  ch ∈ (scan_channels keys t s).1 ↔
  ch ∈ keys ∧ queue_of s ch ≠ [] ∧ (ch ∉ processing_channels s) ∧
  (_can_send_to_channel ch t s).1 = true.
Proof.
  intros Hnd. revert s. induction Hnd as [|k keys Hk Hnd IH]; intros s; simpl.
  - split; [by intros H%elem_of_nil|by intros [H%elem_of_nil _]].
  - run. destruct (queue_of s k) as [|m q] eqn:Eq.
    { rewrite IH, elem_of_cons. split; [intros (?&?&?&?); auto|].
      intros ([->|?]&Hq&?&?); [by rewrite Eq in Hq|auto]. }
    case_bool_decide as HkP.
    { rewrite IH, elem_of_cons. split; [intros (?&?&?&?); auto|].
      intros ([->|?]&?&?&?); [done|auto]. }
    pose proof (can_send_state k t s) as Hs1.
    pose proof (IH (_can_send_to_channel k t s).2) as IH1.
    pose proof (scan_channels_sublist keys t (_can_send_to_channel k t s).2) as Hsub.
    destruct (_can_send_to_channel k t s) as [can s1] eqn:Ecan. simpl in *.
    destruct (scan_channels keys t s1) as [started s2]. simpl in *.
    assert (Hrest : ch ≠ k →
      (ch ∈ started ↔ ch ∈ keys ∧ queue_of s ch ≠ [] ∧
                      (ch ∉ processing_channels s) ∧
                      (_can_send_to_channel ch t s).1 = true)).
    { intros Hne. rewrite IH1, Hs1.
      rewrite (can_send_result_ext ch t
                 (set_channel_message_count
                    (<[k:=purge_window t 5000
                            (default [] (channel_message_count s !! k))]>
                       (channel_message_count s)) s) s);
        [done|simpl; by rewrite lookup_insert_ne|done]. }
    assert (Hkstarted : k ∉ started).
    { intros H. apply Hk. by apply (sublist_subseteq _ _ Hsub). }
    destruct (decide (ch = k)) as [->|Hne].
    + rewrite Eq. destruct can.
      * split; [|intros _; apply elem_of_cons; by left].
        intros _. split; [apply elem_of_cons; by left|]. split; [done|].
        split; [done|]. by rewrite ?Ecan.
      * split; [done|]. intros (_&_&_&Hcan). by rewrite Ecan in Hcan.
    + split.
      * intros Hin. assert (Hst : ch ∈ started).
        { destruct can; [|done]. by apply elem_of_cons in Hin as [?|?]. }
        apply (Hrest Hne) in Hst as (?&?&?&?).
        split; [apply elem_of_cons; by right|done].
      * intros (Hin & Hq & HP & Hcan). apply elem_of_cons in Hin as [?|Hin]; [done|].
        assert (Hst : ch ∈ started) by (by apply (Hrest Hne)).
        destruct can; [apply elem_of_cons; by right|done].
Qed.


Lemma queue_key s ch :
  queue_of s ch ≠ [] → ch ∈ (map_to_list (channel_queues s)).*1.
Proof.
  unfold queue_of. intros Hq.
  destruct (channel_queues s !! ch) as [q|] eqn:E; [|done].
  apply list_elem_of_fmap. exists (ch, q). split; [done|].
  by apply elem_of_map_to_list.
Qed.

(** X13 ([_process_queues], one cycle): while the limiter is globally
    throttled no worker is started and the cycle sleeps 100 ms.  Otherwise a
    worker is started, once, for exactly the channels that have a pending
    message, hold no claim and pass the channel check at the cycle's time;
    the cycle then sleeps 50 ms if some worker was started and 100 ms if
    none was. *)
Theorem dispatcher_starts_exactly_eligible t s :
  let r := (_process_queues t s).1 in
  NoDup r.1 ∧
  (∀ ch, ch ∈ r.1 ↔
         (_is_globally_rate_limited t s).1 = false ∧
         queue_of s ch ≠ [] ∧ (ch ∉ processing_channels s) ∧
         (_can_send_to_channel ch t s).1 = true) ∧
  r.2 = (if bool_decide (r.1 = []) then 100 else 50).
Proof.
  unfold _process_queues. run.
  pose proof (globally_limited_state t s) as Hs.
  destruct (_is_globally_rate_limited t s) as [limited s1]. simpl in Hs.
  destruct limited; simpl.
  { split; [constructor|]. split; [|done].
    intros ch. split; [by intros H%elem_of_nil|by intros [? _]]. }
  assert (Hnd : NoDup (map_to_list (channel_queues s1)).*1)
    by apply NoDup_fst_map_to_list.
  pose proof (scan_channels_sublist (map_to_list (channel_queues s1)).*1 t s1) as Hsub.
  pose proof (λ ch, scan_channels_started _ t s1 ch Hnd) as Hin.
  destruct (scan_channels _ t s1) as [started s2]. simpl in *.
  assert (Hiff : ∀ ch, ch ∈ started ↔
            false = false ∧ queue_of s ch ≠ [] ∧ (ch ∉ processing_channels s) ∧
            (_can_send_to_channel ch t s).1 = true).
  { intros ch. rewrite Hin.
    rewrite (can_send_result_ext ch t s1 s) by (by rewrite Hs).
    assert (Hq : queue_of s1 ch = queue_of s ch) by (by rewrite Hs).
    assert (HP : processing_channels s1 = processing_channels s) by (by rewrite Hs).
    rewrite Hq, HP. split; [intros (?&?&?&?); auto|].
    intros (_&?&?&?). split; [|done]. apply queue_key. by rewrite Hq. }
  assert (Hnd' : NoDup started) by (by eapply sublist_NoDup).
  destruct started as [|c started]; simpl; (split; [done|]); (split; [done|]);
    try case_bool_decide; done.
Qed.

Lemma elem_of_keys (cq : gmap Z (list QueuedMessage)) ch :
  ch ∈ (map_to_list cq).*1 ↔ is_Some (cq !! ch).
Proof.
  rewrite list_elem_of_fmap. split.
  - intros ([k q] & -> & H%elem_of_map_to_list). by exists q.
  - intros [q H]. exists (ch, q). split; [done|]. by apply elem_of_map_to_list.
Qed.

(** X14 ([flush_all_queues]): the shutdown flush starts a worker, once, for
    exactly the channels that have a pending message and hold no claim,
    whatever the rate limits say, and starting them changes nothing in the
    limiter. *)
Theorem flush_starts_every_idle_backlog s :
  let r := flush_all_queues s in
  NoDup r.1 ∧
  (∀ ch, ch ∈ r.1 ↔ queue_of s ch ≠ [] ∧ (ch ∉ processing_channels s)) ∧
  r.2 = s.
Proof.
  unfold flush_all_queues. run. split; [|split; [|done]].
  - apply NoDup_filter, NoDup_fst_map_to_list.
  - intros ch. rewrite list_elem_of_filter. unfold queue_of. split; [by intros [? _]|].
    intros [Hq HP]. split; [done|]. apply elem_of_keys.
    destruct (channel_queues s !! ch); [done|by simpl in Hq].
Qed.

(** *** Send attempts are bounded by submissions *)

Lemma sum_insert_by_priority (f : QueuedMessage → nat) m q :
  sum_list_with f (insert_by_priority m q) = (f m + sum_list_with f q)%nat.
Proof.
  induction q as [|x q IH]; simpl; [done|].
  case_bool_decide; simpl; [done|]. rewrite IH. lia.
Qed.

Lemma sum_list_insert {A} (f : A → nat) (l : list A) i x y :
  l !! i = Some x →
  (sum_list_with f (<[i := y]> l) + f x = sum_list_with f l + f y)%nat.
Proof.
  revert i. induction l as [|a l IH]; intros [|i] Hi; simplify_eq/=; [lia|].
  specialize (IH i Hi). lia.
Qed.

Lemma sum_spawn ch chs : sum_list_with (task_budget ch) (spawn chs) = 0%nat.
Proof.
  induction chs as [|c chs IH]; simpl; [done|]. rewrite IH.
  unfold task_budget. simpl. by case_bool_decide.
Qed.

Lemma count_sends_none ch acts :
  (∀ m t, ¬ In (ActSend ch m t) acts) → count_sends ch acts = 0%nat.
Proof.
  induction acts as [|a acts IH]; intros Hno; simpl; [done|].
  unfold count_sends in *. simpl. rewrite IH by (intros m t H; eapply Hno; by right).
  destruct a as [c m t| | | | | | |]; simpl; try done.
  case_bool_decide; [|done]. subst c. destruct (Hno m t). by left.
Qed.

Lemma attempts_left_pos m : retries_ok m → (1 <= attempts_left m)%nat.
Proof. unfold retries_ok, attempts_left. lia. Qed.

Lemma loop_head_budget ch t s :
  queues_ok s →
  let r := loop_head ch t s in
  (count_sends ch r.1.2 + sum_list_with attempts_left (queue_of r.2 ch) +
   inflight_budget r.1.1 <= sum_list_with attempts_left (queue_of s ch))%nat.
Proof.
  intros Hs. pose proof (queues_ok_queue_of ch s Hs) as Hq.
  assert (H1 : queue_of (_can_send_to_channel ch t s).2 ch = queue_of s ch)
    by (by rewrite can_send_state).
  assert (H2 : queue_of (_is_globally_rate_limited t (_can_send_to_channel ch t s).2).2 ch
               = queue_of s ch)
    by (by rewrite globally_limited_state, can_send_state).
  destruct (loop_head_cases ch t s)
    as [[_ ->]|[(_&_& ->)|[(_&_&_& ->)|(m&rest&Eq&_&_& ->)]]]; cbv zeta; cbn [fst snd].
  - unfold count_sends, inflight_budget, queue_of. simpl. lia.
  - unfold count_sends, inflight_budget. unfold queue_of in *. simpl in *. rewrite H1. lia.
  - unfold count_sends, inflight_budget. unfold queue_of in *. simpl in *. rewrite H2. lia.
  - rewrite queue_of_set_queue, Eq. rewrite Eq in Hq.
    apply Forall_cons in Hq as [Hm%attempts_left_pos _].
    unfold count_sends, inflight_budget. simpl. rewrite bool_decide_true by done. lia.
Qed.

Lemma handle_failure_budget ch m s :
  let r := handle_failure ch m s in
  (count_sends ch r.1.2 + sum_list_with attempts_left (queue_of r.2 ch) +
   inflight_budget r.1.1 <=
   sum_list_with attempts_left (queue_of s ch) + (attempts_left m - 1))%nat.
Proof.
  cbv zeta. rewrite handle_failure_state. case_bool_decide; cbn [fst snd].
  - rewrite queue_of_set_queue. unfold count_sends, inflight_budget, attempts_left.
    simpl. lia.
  - unfold count_sends, inflight_budget. simpl. lia.
Qed.

(** One resumption of a worker never makes the attempts left to its
    channel grow, and pays one of them for each send. *)
Lemma worker_step_budget ch pc inp s :
  queues_ok s → (∀ m, in_flight pc = Some m → retries_ok m) →
  let r := _process_channel_queue ch pc inp s in
  (count_sends ch r.1.2 + sum_list_with attempts_left (queue_of r.2 ch) +
   inflight_budget r.1.1 <=
   sum_list_with attempts_left (queue_of s ch) + inflight_budget pc)%nat.
Proof.
  intros Hs Hpc. cbv zeta.
  destruct pc as [|m t|m t|m| |]; cbn [_process_channel_queue].
  - unfold worker_enter. run. case_bool_decide; simpl.
    { unfold count_sends, inflight_budget. simpl. lia. }
    pose proof (queues_ok_dd_get s ch Hs) as Hs1.
    pose proof (dd_get_lookup (channel_queues s) ch ch) as Hd.
    destruct (dd_get (channel_queues s) ch) as [q cq1]. simpl in *.
    destruct (channel_found inp); simpl.
    + match goal with |- context [loop_head ch ?t ?s0] =>
        pose proof (loop_head_budget ch t s0) as Hl end.
      cbv zeta in Hl. unfold inflight_budget at 2. simpl.
      etrans; [apply Hl; eapply queues_ok_frame; [|exact Hs1]; done|].
      unfold queue_of. simpl. rewrite Hd. lia.
    + unfold count_sends, inflight_budget, queue_of. simpl.
      rewrite lookup_insert_eq. simpl. lia.
  - rewrite on_send_result_cases. destruct (result inp) as [|ra g| |].
    + rewrite record_success_state. cbn [fst snd].
      unfold queue_of at 1. simpl. fold (queue_of s ch).
      destruct (callback m); unfold count_sends, inflight_budget; simpl; lia.
    + destruct g; unfold count_sends, inflight_budget, queue_of; simpl; lia.
    + pose proof (handle_failure_budget ch m s) as Hf. cbv zeta in Hf.
      destruct (handle_failure ch m s) as [[pc' a] s']. cbn [fst snd] in *.
      unfold inflight_budget at 2. simpl. unfold count_sends in *. simpl. lia.
    + pose proof (handle_failure_budget ch m s) as Hf. cbv zeta in Hf.
      destruct (handle_failure ch m s) as [[pc' a] s']. cbn [fst snd] in *.
      unfold inflight_budget at 2. simpl. unfold count_sends in *. simpl. lia.
  - apply handle_failure_budget.
  - unfold count_sends, inflight_budget. simpl. lia.
  - etrans; [by apply loop_head_budget|]. lia.
  - unfold count_sends, inflight_budget. simpl. lia.
Qed.

Lemma queue_message_budget ch e f c p cb hc t u s k :
  (sum_list_with attempts_left (queue_of (queue_message ch e f c p cb hc t u s).2 k) <=
   sum_list_with attempts_left (queue_of s k) + (if bool_decide (ch = k) then 3 else 0))%nat.
Proof.
  unfold queue_message. run.
  destruct (dd_get (recent_embeds s) ch) as [recent re1]. simpl.
  destruct (remove_old_hashes t recent) as [kept|]; simpl;
    [|unfold queue_of; simpl; lia].
  destruct (str_in _ kept); simpl; [unfold queue_of; simpl; lia|].
  pose proof (dd_get_default (channel_queues s) ch) as Hd.
  pose proof (dd_get_lookup_ne (channel_queues s) ch k) as Hne.
  destruct (dd_get (channel_queues s) ch) as [queue cq1]. simpl in *.
  unfold queue_of. simpl. case_bool_decide as Hk.
  - subst k. rewrite lookup_insert_eq. simpl. rewrite sum_insert_by_priority, Hd.
    unfold attempts_left at 1. simpl. lia.
  - rewrite lookup_insert_ne, Hne by done. lia.
Qed.

Lemma sys_exec_budget ch ev σ :
  retries_wf σ →
  (count_sends ch (sys_exec ev σ).2 + send_budget ch (sys_exec ev σ).1 <=
   send_budget ch σ + 3 * count_submits ch [ev])%nat.
Proof.
  intros [Hq Ht]. unfold send_budget.
  destruct ev as [x|clock| |i inp|i|clock]; simpl.
  - pose proof (queue_message_budget (sub_channel x) (sub_embed x) (sub_file x)
      (sub_content x) (sub_priority x) (sub_callback x) (sub_hash_clock x)
      (sub_time x) (sub_utc x) (lim σ) ch) as Hb.
    unfold submit. destruct (queue_message _ _ _ _ _ _ _ _ _ _) as [o l]. simpl in *.
    unfold count_sends, count_submits. simpl. case_bool_decide; lia.
  - pose proof (process_queues_frame clock (lim σ)) as (_ & Hcq & _).
    destruct (_process_queues clock (lim σ)) as [r l]. simpl in *.
    rewrite sum_list_with_app, sum_spawn. unfold queue_of. rewrite Hcq.
    unfold count_sends, count_submits. simpl. lia.
  - rewrite sum_list_with_app, sum_spawn.
    unfold count_sends, count_submits. simpl. lia.
  - destruct (tasks σ !! i) as [[c pc]|] eqn:Hi; simpl;
      [|unfold count_sends, count_submits; simpl; lia].
    pose proof (sum_list_insert (task_budget ch) (tasks σ) i (c, pc)
                  (c, (_process_channel_queue c pc inp (lim σ)).1.1) Hi) as Hsum.
    destruct (decide (c = ch)) as [->|Hne].
    + pose proof (worker_step_budget ch pc inp (lim σ) Hq) as Hb.
      cbv zeta in Hb. specialize (Hb (λ m, Ht i ch pc m Hi)).
      destruct (_process_channel_queue ch pc inp (lim σ)) as [[pc' acts] l].
      simpl in *. unfold task_budget in Hsum at 2 4. simpl in Hsum.
      rewrite !bool_decide_true in Hsum by done.
      unfold count_submits. simpl. lia.
    + destruct (process_channel_queue_agree c pc inp (lim σ)) as [_ Hag].
      destruct (Hag ch) as [Hcq _]; [done|].
      pose proof (worker_step_sends c pc inp (lim σ) ch) as Hno.
      destruct (_process_channel_queue c pc inp (lim σ)) as [[pc' acts] l].
      simpl in *. unfold task_budget in Hsum at 2 4. simpl in Hsum.
      rewrite !bool_decide_false in Hsum by done.
      rewrite count_sends_none by (intros m t H; by apply Hno in H as [? _]).
      unfold queue_of. rewrite Hcq. unfold count_submits. simpl. lia.
  - destruct (tasks σ !! i) as [[c pc]|] eqn:Hi; simpl;
      [|unfold count_sends, count_submits; simpl; lia].
    pose proof (sum_list_insert (task_budget ch) (tasks σ) i (c, pc) (c, WDone) Hi) as Hsum.
    assert (Hdone : task_budget ch (c, WDone) = 0%nat)
      by (unfold task_budget; simpl; by case_bool_decide).
    rewrite Hdone in Hsum.
    unfold worker_cancel. destruct (holding pc); run;
      unfold count_sends, count_submits, queue_of; simpl; lia.
  - unfold count_sends, count_submits. simpl. lia.
Qed.

Lemma count_sends_app ch a b :
  count_sends ch (a ++ b) = (count_sends ch a + count_sends ch b)%nat.
Proof. apply sum_list_with_app. Qed.

Lemma sys_run_budget ch evs σ :
  retries_wf σ →
  (count_sends ch (sys_run evs σ).2 + send_budget ch (sys_run evs σ).1 <=
   send_budget ch σ + 3 * count_submits ch evs)%nat.
Proof.
  revert σ. induction evs as [|ev evs IH]; intros σ Hwf; simpl.
  { unfold count_sends, count_submits. simpl. lia. }
  pose proof (retries_wf_exec ev σ Hwf) as Hwf1.
  pose proof (sys_exec_budget ch ev σ Hwf) as Hstep.
  destruct (sys_exec ev σ) as [σ1 a1]. specialize (IH σ1 Hwf1).
  destruct (sys_run evs σ1) as [σ2 a2]. simpl in *.
  rewrite count_sends_app. unfold count_submits in *. simpl in *. lia.
Qed.

(** X15 (send attempts against submissions): in every run of the event
    loop from a fresh limiter, whatever the interleaving of submissions,
    dispatcher cycles, flushes, worker resumptions, send outcomes and
    cancellations, the number of [channel.send] calls made for a channel is
    at most three times the number of [queue_message] calls for it. *)
Theorem sends_bounded_by_submissions evs ch :
  (count_sends ch (sys_run evs sys_init).2 <= 3 * count_submits ch evs)%nat.
Proof.
  pose proof (sys_run_budget ch evs sys_init retries_wf_init) as H.
  assert (H0 : send_budget ch sys_init = 0%nat) by done.
  rewrite H0 in H. lia.
Qed.

(** *** A started worker finds its channel eligible *)

Lemma scan_channels_state keys t s :
  ∃ cmc, (scan_channels keys t s).2 = set_channel_message_count cmc s.
Proof.
  revert s. induction keys as [|k keys IH]; intros s; simpl.
  - exists (channel_message_count s). by destruct s.
  - run. destruct (queue_of s k); [apply IH|]. case_bool_decide; [apply IH|].
    pose proof (can_send_state k t s) as Hs.
    destruct (_can_send_to_channel k t s) as [can s1]. simpl in Hs.
    destruct (IH s1) as [cmc E].
    destruct (scan_channels keys t s1) as [started s2]. simpl in *.
    exists cmc. by rewrite E, Hs.
Qed.

Lemma scan_channels_room keys t s ch :
  ch ∈ (scan_channels keys t s).1 → has_room ch (scan_channels keys t s).2.
Proof.
  revert s. induction keys as [|k keys IH]; intros s; simpl.
  - by intros ?%elem_of_nil.
  - run. destruct (queue_of s k); [apply IH|]. case_bool_decide; [apply IH|].
    pose proof (can_send_state k t s) as Hs.
    pose proof (can_send_true k t s) as Hc.
    pose proof (scan_channels_shrinks keys t (_can_send_to_channel k t s).2 ch) as Hsh.
    destruct (_can_send_to_channel k t s) as [can s1]. simpl in *.
    specialize (IH s1). destruct (scan_channels keys t s1) as [started s2]. simpl in *.
    destruct can; [|apply IH].
    intros [Heq|Hin]%elem_of_cons; [subst k|by apply IH].
    apply Hsh. unfold has_room. rewrite Hs. simpl. rewrite lookup_insert_eq. simpl.
    by apply Hc.
Qed.

(** A channel for which the dispatcher starts a worker passes both checks,
    without any further purge, in the state the cycle leaves. *)
Lemma process_queues_quiet t s ch :
  ch ∈ (_process_queues t s).1.1 →
  quiet ch t (_process_queues t s).2 ∧ queue_of s ch ≠ [] ∧
  (ch ∉ processing_channels s).
Proof.
  unfold _process_queues. run.
  pose proof (globally_limited_state t s) as Hs.
  pose proof (globally_limited_false t s) as Hg.
  destruct (_is_globally_rate_limited t s) as [limited s1]. simpl in *.
  destruct limited; simpl; [by intros ?%elem_of_nil|].
  destruct Hg as [Hg _]. destruct (Hg eq_refl) as [Hg1 Hg2].
  pose proof (scan_channels_room (map_to_list (channel_queues s1)).*1 t s1 ch) as Hroom.
  destruct (scan_channels_state (map_to_list (channel_queues s1)).*1 t s1) as [cmc Est].
  pose proof (scan_channels_started (map_to_list (channel_queues s1)).*1 t s1 ch
                (NoDup_fst_map_to_list _)) as Hin.
  destruct (scan_channels _ t s1) as [started s2]. simpl in *.
  intros Hch. assert (Hst : ch ∈ started) by (by destruct started).
  assert (Es2 : s2 = set_channel_message_count cmc s1) by (by destruct started).
  apply Hin in Hst as Hel. destruct Hel as (_ & Hq & HP & Hcan).
  apply can_send_true in Hcan as [_ Hlast].
  rewrite Hs in Hq, HP, Hlast. split; [|done].
  assert (Hquiet : quiet ch t s2).
  { unfold quiet. specialize (Hroom Hst). unfold has_room in Hroom.
    rewrite Es2 in *. rewrite Hs. simpl in *. done. }
  by destruct started.
Qed.

(** X16 (dispatcher and worker agree): a worker the dispatcher starts at
    clock [t], when its first resumption comes at a clock [t' >= t] before
    anything else touches the limiter and finds the channel, hands the head
    of the channel's queue to the transport and leaves the rest queued. *)
Theorem started_worker_sends_head t t' s ch :
  ch ∈ (_process_queues t s).1.1 → t <= t' →
  ∃ m rest s1,
    queue_of s ch = m :: rest ∧
    _process_channel_queue ch WStart (wake t') (_process_queues t s).2 =
      ((WSend m t', [ActSend ch m t']), s1) ∧
    queue_of s1 ch = rest.
Proof.
  intros Hch Htt'. destruct (process_queues_quiet t s ch Hch) as (Hquiet & Hq & HP).
  destruct (process_queues_frame t s) as (EP & Ecq & _).
  destruct (queue_of s ch) as [|m rest] eqn:Eq; [done|].
  destruct (worker_enter_quiet ch t' (_process_queues t s).2 m rest)
    as (s1 & E & Hq1 & _).
  - by rewrite EP.
  - by eapply quiet_later.
  - unfold queue_of in *. by rewrite Ecq.
  - by exists m, rest, s1.
Qed.

(** *** A retried message goes first *)

Lemma quiet_set_queue ch t q s : quiet ch t s → quiet ch t (set_queue ch q s).
Proof. done. Qed.

(** X17 (retry order): a message whose send fails with fewer than two
    earlier failures is put back at the head of its queue, ahead of
    whatever was queued while it was in flight and whatever the priorities:
    on an eligible channel the worker's next send is the same message
    again, and the queue is left as it was found. *)
Theorem retried_message_goes_first ch m t r c t' s :
  transient r → retry_count m + 1 < 3 → quiet ch t' s →
  let m' := with_retry_count m (retry_count m + 1) in
  let run := worker_run [answer r c; wake t'] ch (WSend m t) s in
  run.1 = (WSend m' t', [LogSendError; ActSend ch m' t']) ∧
  queue_of run.2 ch = queue_of s ch.
Proof.
  intros Hr Hlt Hquiet m' run.
  pose proof (transient_step ch m t r c s Hr) as E1. fold m' in E1.
  rewrite bool_decide_true in E1 by done.
  destruct (loop_head_quiet ch t' (set_queue ch (m' :: queue_of s ch) s) m' (queue_of s ch))
    as (s1 & E2 & Hq1 & _ & _);
    [by apply quiet_set_queue|by rewrite queue_of_set_queue|].
  assert (Hsend : WSend m t ≠ WDone) by done.
  assert (Hdelay : WDelay ≠ WDone) by done.
  assert (E2' : _process_channel_queue ch WDelay (wake t')
                  (set_queue ch (m' :: queue_of s ch) s) =
                ((WSend m' t', [ActSend ch m' t']), s1)) by exact E2.
  subst run.
  rewrite (worker_run_step _ _ _ _ _ _ _ _ Hsend E1).
  rewrite (worker_run_step _ _ _ _ _ _ _ _ Hdelay E2').
  cbn [worker_run]. unfold ret. cbn [fst snd]. by rewrite app_nil_r.
Qed.

(** *** A worker alone drains its queue in order *)

Lemma room_for_quiet n ch t s : room_for (S n) ch t s → quiet ch t s.
Proof. unfold room_for, quiet. intros (?&?&?&?). repeat split; try done; lia. Qed.

Lemma loop_head_room n ch t s m rest :
  room_for (S n) ch t s → queue_of s ch = m :: rest →
  ∃ s1, loop_head ch t s = ((WSend m t, [ActSend ch m t]), s1) ∧
        queue_of s1 ch = rest ∧
        processing_channels s1 = processing_channels s ∧
        room_for (S n) ch t s1.
Proof.
  intros Hroom Hq. pose proof (room_for_quiet n ch t s Hroom) as Hquiet.
  destruct Hroom as (Hg & Hc & Hr & Hl).
  destruct (loop_head_quiet ch t s m rest Hquiet Hq) as (s1 & E & Hq1 & HP & _).
  exists s1. repeat split; try done.
  all: destruct (loop_head_cases ch t s)
    as [[Hq' _]|[(_&_&E')|[(_&_&_&E')|(m0&rest0&Hq'&_&_&E')]]];
    try congruence; rewrite E in E'; try discriminate.
  all: injection E' as _ _ ->; rewrite globally_limited_state, can_send_state;
    unfold set_queue; simpl; try done.
  - pose proof (purge_window_length t 1000 (global_message_times s)). lia.
  - rewrite lookup_insert_eq. simpl.
    pose proof (purge_window_length t 5000
      (default [] (channel_message_count s !! ch))). lia.
Qed.

Lemma worker_enter_room n ch t s m rest :
  ch ∉ processing_channels s → room_for (S n) ch t s → queue_of s ch = m :: rest →
  ∃ s1, _process_channel_queue ch WStart (wake t) s = ((WSend m t, [ActSend ch m t]), s1) ∧
        queue_of s1 ch = rest ∧ room_for (S n) ch t s1.
Proof.
  intros Hfree Hroom Hq. simpl. unfold worker_enter. run.
  rewrite bool_decide_false by done.
  pose proof (dd_get_lookup (channel_queues s) ch ch) as Hdd.
  destruct (dd_get (channel_queues s) ch) as [q cq1]. simpl in *.
  match goal with |- context [loop_head ch t ?s0] =>
    destruct (loop_head_room n ch t s0 m rest) as (s1 & E & Hq1 & _ & Hroom1) end.
  - exact Hroom.
  - unfold queue_of. simpl. by rewrite Hdd.
  - exists s1. by rewrite E.
Qed.

Lemma worker_enter_empty ch t s :
  ch ∉ processing_channels s → queue_of s ch = [] →
  ∃ s1, _process_channel_queue ch WStart (wake t) s = ((WDone, []), s1) ∧
        queue_of s1 ch = [] ∧ (ch ∉ processing_channels s1).
Proof.
  intros Hfree Hq. simpl. unfold worker_enter. run.
  rewrite bool_decide_false by done.
  pose proof (dd_get_lookup (channel_queues s) ch ch) as Hdd.
  destruct (dd_get (channel_queues s) ch) as [q cq1]. simpl in *.
  match goal with |- context [loop_head ch t ?s0] =>
    pose proof (loop_head_empty ch t s0) as E end.
  rewrite E by (unfold queue_of; simpl; by rewrite Hdd).
  eexists. split; [reflexivity|]. split.
  - unfold queue_of. simpl. by rewrite Hdd.
  - simpl. set_solver.
Qed.

Lemma record_success_room n ch m t s t' :
  room_for (S n) ch t s → t + MESSAGE_DELAY <= t' →
  room_for n ch t' (record_success ch m t s).2.
Proof.
  intros (Hg & Hc & Hr & Hl) Ht'. rewrite record_success_state.
  unfold room_for. simpl. rewrite !lookup_insert_eq. simpl.
  unfold deque_append.
  destruct (GLOBAL_RATE_LIMIT <=? _)%nat eqn:E1;
    [apply Nat.leb_le in E1; lia|].
  destruct (CHANNEL_RATE_LIMIT <=? _)%nat eqn:E2;
    [apply Nat.leb_le in E2; lia|].
  rewrite !length_app. simpl. unfold MESSAGE_DELAY in *. repeat split; lia.
Qed.

(** One accepted send of a worker alone: the head is sent and delivered,
    its callback runs, and the run goes on from the delay with room for one
    message less. *)
Lemma delivered_attempt n ch m rest t c s pc0 :
  pc0 = WDelay ∨ (pc0 = WStart ∧ ch ∉ processing_channels s) →
  room_for (S n) ch t s → queue_of s ch = m :: rest →
  ∃ s', (∀ t', t + MESSAGE_DELAY <= t' → room_for n ch t' s') ∧
        queue_of s' ch = rest ∧
        ∀ inputs,
          worker_run (wake t :: answer Sent c ::
                        match callback m with Some _ => [wake t] | None => [] end ++
                        inputs) ch pc0 s =
            ((worker_run inputs ch WDelay s').1.1,
             ActSend ch m t :: ActDelivered ch m :: callback_actions m ++
               (worker_run inputs ch WDelay s').1.2,
             (worker_run inputs ch WDelay s').2).
Proof.
  intros Hpc Hroom Hq.
  assert (Hstep : ∃ s1,
    _process_channel_queue ch pc0 (wake t) s = ((WSend m t, [ActSend ch m t]), s1) ∧
    queue_of s1 ch = rest ∧ room_for (S n) ch t s1).
  { destruct Hpc as [->|[-> Hfree]].
    - destruct (loop_head_room n ch t s m rest Hroom Hq) as (s1 & E & H1 & _ & H2).
      by exists s1.
    - by apply worker_enter_room. }
  destruct Hstep as (s1 & E1 & Hq1 & Hroom1).
  exists (record_success ch m t s1).2. split; [|split].
  - intros t' Ht'. by apply record_success_room.
  - rewrite record_success_state. unfold queue_of in *. by simpl.
  - intros inputs.
    assert (Hne : pc0 ≠ WDone) by (destruct Hpc as [->|[-> _]]; done).
    assert (Hsend : WSend m t ≠ WDone) by done.
    assert (E2 : _process_channel_queue ch (WSend m t) (answer Sent c) s1 =
                 record_success ch m t s1).
    { cbn [_process_channel_queue result now answer]. by rewrite on_send_result_cases. }
    rewrite (worker_run_step _ _ _ _ _ _ _ _ Hne E1).
    pose proof (record_success_state ch m t s1) as E3. rewrite <- E2 in E3 at 1.
    unfold callback_actions. destruct (callback m) as [cb|] eqn:Ecb.
    + rewrite (worker_run_step _ _ _ _ _ _ _ _ Hsend E3).
      assert (Hcb : WCallback m ≠ WDone) by done.
      rewrite (worker_run_step (wake t) inputs ch (WCallback m) _ WDelay [] _ Hcb eq_refl).
      cbn [fst snd]. rewrite record_success_state. by cbn [fst snd app].
    + rewrite (worker_run_step _ _ _ _ _ _ _ _ Hsend E3).
      cbn [fst snd]. rewrite record_success_state. by cbn [fst snd app].
Qed.

Lemma drain_from_delay ch q : ∀ ts s t_end,
  length ts = length q → spaced ts →
  (∀ t, head ts = Some t → room_for (length q) ch t s) → queue_of s ch = q →
  let r := worker_run (delivery_inputs q ts ++ [wake t_end]) ch WDelay s in
  r.1 = (WDone, delivery_trace ch q ts) ∧ queue_of r.2 ch = [] ∧
  (ch ∉ processing_channels r.2).
Proof.
  induction q as [|m q IH]; intros ts s t_end Hlen Hsp Hroom Hq; cbv zeta.
  - destruct ts; [|done]. cbn [delivery_inputs delivery_trace app].
    assert (Hdelay : WDelay ≠ WDone) by done.
    rewrite (worker_run_step (wake t_end) _ ch WDelay s _ _ _ Hdelay
               (loop_head_empty ch t_end s Hq)).
    rewrite worker_run_done. cbn [fst snd app]. repeat split; [done|].
    simpl. set_solver.
  - destruct ts as [|t ts]; [done|]. cbn [delivery_inputs delivery_trace].
    simpl in Hlen. injection Hlen as Hlen.
    specialize (Hroom t eq_refl). simpl in Hroom.
    destruct (delivered_attempt (length q) ch m q t t s WDelay) as (s' & Hroom' & Hq' & E);
      [by left|done|done|].
    rewrite <- !app_comm_cons, <- app_assoc, E.
    destruct (IH ts s' t_end Hlen) as (E1 & E2 & E3); [| |done|].
    + destruct ts; [done|]. by destruct Hsp.
    + intros t' Ht'. apply Hroom'. destruct ts as [|t0 ts]; [done|].
      simpl in Ht'. injection Ht' as ->. by destruct Hsp.
    + cbn [fst snd]. rewrite E1. by cbn [fst snd].
Qed.

(** X18 (draining): a worker started alone on a channel that is free,
    whose windows have room for the whole queue and whose deadline and delay
    have passed at the first clock, with loop headers at least
    [MESSAGE_DELAY] apart and every send accepted, sends and delivers every
    queued message once, in queue order, runs each callback after its
    delivery, and stops with the queue empty and the claim released. *)
Theorem worker_drains_queue_in_order ch q ts s t_end :
  ch ∉ processing_channels s → queue_of s ch = q →
  length ts = length q → spaced ts →
  (∀ t, head ts = Some t → room_for (length q) ch t s) →
  let r := worker_run (delivery_inputs q ts ++ [wake t_end]) ch WStart s in
  r.1 = (WDone, delivery_trace ch q ts) ∧ queue_of r.2 ch = [] ∧
  (ch ∉ processing_channels r.2).
Proof.
  intros Hfree Hq Hlen Hsp Hroom. cbv zeta.
  destruct q as [|m q].
  - destruct ts; [|done]. cbn [delivery_inputs delivery_trace app].
    destruct (worker_enter_empty ch t_end s Hfree Hq) as (s1 & E & Hq1 & HP1).
    assert (Hstart : WStart ≠ WDone) by done.
    rewrite (worker_run_step (wake t_end) _ ch WStart s _ _ _ Hstart E).
    rewrite worker_run_done. by cbn [fst snd app].
  - destruct ts as [|t ts]; [done|]. cbn [delivery_inputs delivery_trace].
    simpl in Hlen. injection Hlen as Hlen.
    specialize (Hroom t eq_refl). simpl in Hroom.
    destruct (delivered_attempt (length q) ch m q t t s WStart) as (s' & Hroom' & Hq' & E);
      [by right|done|done|].
    rewrite <- !app_comm_cons, <- app_assoc, E.
    destruct (drain_from_delay ch q ts s' t_end Hlen) as (E1 & E2 & E3); [| |done|].
    + destruct ts; [done|]. by destruct Hsp.
    + intros t' Ht'. apply Hroom'. destruct ts as [|t0 ts]; [done|].
      simpl in Ht'. injection Ht' as ->. by destruct Hsp.
    + cbn [fst snd]. rewrite E1. by cbn [fst snd].
Qed.

(** *** The global deadline *)

Lemma process_queues_started t s ch :
  (_is_globally_rate_limited t s).1 = false →
  ch ∈ (_process_queues t s).1.1 ↔
  queue_of s ch ≠ [] ∧ (ch ∉ processing_channels s) ∧
  (_can_send_to_channel ch t s).1 = true.
Proof.
  intros Hfree. unfold _process_queues. run.
  pose proof (globally_limited_state t s) as Hs.
  destruct (_is_globally_rate_limited t s) as [limited s1]. simpl in Hs, Hfree.
  subst limited. simpl.
  pose proof (scan_channels_started (map_to_list (channel_queues s1)).*1 t s1 ch
                (NoDup_fst_map_to_list _)) as Hin.
  destruct (scan_channels _ t s1) as [started s2]. simpl in *.
  assert (Hiff : ch ∈ started ↔
            queue_of s ch ≠ [] ∧ (ch ∉ processing_channels s) ∧
            (_can_send_to_channel ch t s).1 = true).
  { rewrite Hin. rewrite (can_send_result_ext ch t s1 s) by (by rewrite Hs).
    assert (Hq : queue_of s1 ch = queue_of s ch) by (by rewrite Hs).
    assert (HP : processing_channels s1 = processing_channels s) by (by rewrite Hs).
    rewrite Hq, HP. split; [intros (?&?&?&?); auto|].
    intros (?&?&?). split; [|done]. apply queue_key. by rewrite Hq. }
  by destruct started.
Qed.

(** C7: a global 429 sets the global deadline to the handler's clock plus
    the retry-after.  Before the current deadline no step of the event loop
    hands a message of any channel to the transport, a dispatcher cycle
    creates no worker, and a worker reaching the loop header stops without
    touching the queues.  From the deadline on, while the global window has
    room, sending resumes: a dispatcher cycle starts a worker for exactly the
    channels that have a pending message, hold no claim and pass the channel
    check, and a worker at the loop header of such a channel hands the head
    of the queue to the transport. *)
Theorem global_throttle_blocks_sends :
  (∀ ch m t ra clock s,
     global_rate_limit_reset (on_send_result ch m t (RateLimited ra true) clock s).2
       = clock + default 1000 ra) ∧
  (∀ ev σ ch m t,
     In (ActSend ch m t) (sys_exec ev σ).2 → global_rate_limit_reset (lim σ) <= t) ∧
  (∀ clock s,
     clock < global_rate_limit_reset s → (_process_queues clock s).1 = ([], 100)) ∧
  (∀ ch clock s,
     clock < global_rate_limit_reset s →
     (loop_head ch clock s).1 = (WDone, []) ∧
     channel_queues (loop_head ch clock s).2 = channel_queues s) ∧
  (∀ ch t s,
     global_rate_limit_reset s <= t →
     (length (purge_window t 1000 (global_message_times s)) < GLOBAL_RATE_LIMIT)%nat →
     ch ∈ (_process_queues t s).1.1 ↔
     queue_of s ch ≠ [] ∧ (ch ∉ processing_channels s) ∧
     (_can_send_to_channel ch t s).1 = true) ∧
  (∀ ch t s m rest,
     global_rate_limit_reset s <= t →
     (length (purge_window t 1000 (global_message_times s)) < GLOBAL_RATE_LIMIT)%nat →
     (_can_send_to_channel ch t s).1 = true →
     queue_of s ch = m :: rest →
     (loop_head ch t s).1 = (WSend m t, [ActSend ch m t])).
Proof.
  split; [|split; [|split; [|split; [|split]]]].
  - intros. reflexivity.
  - intros ev σ ch m t H.
    apply sys_exec_sends in H as (i & pc & inp & _ & _ & H).
    by apply worker_step_sends in H as (_ & _ & _ & Ht & _).
  - intros clock s H. unfold _process_queues. run.
    pose proof (globally_limited_before_reset clock s H) as Hl.
    destruct (_is_globally_rate_limited clock s) as [limited s1].
    simpl in Hl. by rewrite Hl.
  - intros ch clock s H.
    destruct (loop_head_cases ch clock s)
      as [[_ ->]|[(_&_& ->)|[(_&_&_& ->)|(m0&rest&_&_&Hlim& _)]]]; simpl.
    + done.
    + by rewrite can_send_state.
    + by rewrite globally_limited_state, can_send_state.
    + apply globally_limited_false in Hlim as [_ Hlim].
      rewrite can_send_state in Hlim. simpl in Hlim. lia.
  - intros ch t s Ht Hlen. apply process_queues_started.
    by apply globally_limited_false.
  - intros ch t s m rest Ht Hlen Hcan Hq.
    destruct (loop_head_cases ch t s)
      as [[Hq' _]|[(_&Hc&_)|[(_&_&Hl&_)|(m0&rest0&Hq'&_&_& ->)]]]; simpl.
    + congruence.
    + congruence.
    + assert ((_is_globally_rate_limited t (_can_send_to_channel ch t s).2).1 = false);
        [|congruence].
      apply globally_limited_false. by rewrite can_send_state.
    + congruence.
Qed.

End Properties.

(** ** Concrete runs *)

(** The state of the interleaved example: the worker of channel 7 awaits
    the send of the NORMAL message and the CRITICAL one is queued. *)
Example example_interleaved_state :
  tasks example_interleaved =
    [(7, WSend (message_of (example_submission NORMAL 500)) 1000)] ∧
  queue_of (lim example_interleaved) 7 =
    [message_of (example_submission CRITICAL 1500)] ∧
  processing_channels (lim example_interleaved) = {[7]}.
Proof. vm_compute. done. Qed.

(** Two identical submissions one second apart are both queued. *)
Lemma duplicate_within_window_is_queued_witness :
  let r1 := queue_message example_hash 7 example_embed None None NORMAL None
              1000 1000 1000 init in
  let r2 := queue_message example_hash 7 example_embed None None NORMAL None
              2000 2000 2000 r1.2 in
  r1.1 = Queued ∧ r2.1 = Queued ∧
  length (queue_of r2.2 7) = S (S (length (queue_of init 7))).
Proof.
  apply (duplicate_within_window_is_queued example_hash 7 example_embed None None
           NORMAL None 1000 1000 1000 2000 2000 2000 init).
  - intros ch l. vm_compute. discriminate.
  - unfold dedup_window. lia.
Defined.




(** Stats taken before and after the global deadline differ. *)
Lemma stats_idempotent_counterexample :
  ¬ stats_idempotent_spec 9000 11000 example_throttled.
Proof. unfold stats_idempotent_spec. vm_compute. intros H. discriminate H. Qed.

Lemma stats_idempotent_up_to_clock_witness :
  (get_queue_stats 2000 (get_queue_stats 1000 example_throttled).2).1 =
  (get_queue_stats 1000 example_throttled).1.
Proof.
  destruct (stats_idempotent_up_to_clock 1000 2000 example_throttled) as (_ & _ & H).
  apply H. simpl. lia.
Defined.

Lemma stable_priority_insertion_witness :
  Forall (fun x => sub_channel x = 7) example_submissions ∧
  let q := queue_of (submit_all example_hash example_submissions init).2 7 in
  StronglySorted at_least_as_urgent q ∧
  (∀ p, tier p q = tier p (map message_of example_submissions)).
Proof.
  assert (H : Forall (fun x => sub_channel x = 7) example_submissions)
    by (repeat constructor).
  split; [exact H|].
  destruct (stable_priority_insertion example_hash example_submissions 7 H)
    as (_ & _ & Hsorted & _ & Htier).
  split; [exact Hsorted|exact Htier].
Defined.

(** The submissions of the example are delivered CRITICAL, NORMAL, LOW. *)
Example example_submissions_order :
  map priority (queue_of (submit_all example_hash example_submissions init).2 7)
    = [CRITICAL; NORMAL; LOW].
Proof. vm_compute. reflexivity. Qed.

Lemma retry_bound_witness :
  let m := example_message NORMAL 0 in
  let s := set_queue 7 [m] init in
  let r := worker_run [wake 1000; answer HTTPError 1100; wake 2000;
                       answer HTTPError 2100; wake 3000; answer Sent 3100;
                       wake 4000; wake 5000] 7 WStart s in
  r.1 = (WDone, [ActSend 7 m 1000; LogSendError;
                 ActSend 7 (with_retry_count m 1) 2000; LogSendError;
                 ActSend 7 (with_retry_count m 2) 3000;
                 ActDelivered 7 (with_retry_count m 2)]) ∧
  queue_of r.2 7 = [].
Proof.
  intros m s.
  destruct (retry_bound example_hash 7 m s 1000 2000 3000 4000 5000
              HTTPError HTTPError HTTPError 1100 2100 3100) as (_ & _ & _ & H).
  - reflexivity.
  - reflexivity.
  - vm_compute. set_solver.
  - unfold quiet. vm_compute. repeat split; try lia; discriminate.
  - lia.
  - lia.
  - by left.
  - by left.
  - by left.
  - exact H.
Defined.

Lemma send_recording_witness :
  global_message_times
    (on_send_result 7 (example_message NORMAL 0) 1000 Sent 1000 init).2 = [1000].
Proof.
  destruct (send_recording 7 (example_message NORMAL 0) 1000 Sent 1000 init)
    as ((dropped & kept & H1 & H2 & H3) & _).
  rewrite H2. simpl in H1, H3. rewrite (H3 ltac:(unfold GLOBAL_RATE_LIMIT; lia)) in H1.
  simpl in H1. by rewrite <- H1.
Defined.

(** The global 429 answered at 1.1 s with a retry-after of 2 s sets the
    deadline to 3.1 s.  Channel 8 has a message pending, holds no claim and
    passes its own check; one millisecond before the deadline the dispatcher
    starts nothing and a worker at its loop header stops, at the deadline
    the dispatcher starts its worker and the loop header sends the message. *)
Lemma global_throttle_blocks_sends_witness :
  let s := lim example_global_429 in
  let m := message_of example_submission_8 in
  global_rate_limit_reset
    (on_send_result 7 (message_of (example_submission NORMAL 500)) 1000
       (RateLimited (Some 2000) true) 1100 (lim example_awaiting)).2 = 3100 ∧
  s = (on_send_result 7 (message_of (example_submission NORMAL 500)) 1000
         (RateLimited (Some 2000) true) 1100 (lim example_awaiting)).2 ∧
  global_rate_limit_reset s = 3100 ∧
  queue_of s 8 = [m] ∧
  (_can_send_to_channel 8 3099 s).1 = true ∧
  (_process_queues 3099 s).1 = ([], 100) ∧
  (loop_head 8 3099 s).1 = (WDone, []) ∧
  channel_queues (loop_head 8 3099 s).2 = channel_queues s ∧
  8 ∈ (_process_queues 3100 s).1.1 ∧
  (loop_head 8 3100 s).1 = (WSend m 3100, [ActSend 8 m 3100]).
Proof.
  destruct (global_throttle_blocks_sends example_hash)
    as (Hset & _ & Hdispatch & Hworker & Hstart & Hsend).
  assert (Hd : global_rate_limit_reset (lim example_global_429) = 3100)
    by (vm_compute; reflexivity).
  cbv zeta. split; [apply Hset|]. split; [vm_compute; reflexivity|].
  split; [exact Hd|].
  split; [vm_compute; reflexivity|]. split; [vm_compute; reflexivity|].
  split; [apply Hdispatch; rewrite Hd; lia|].
  split; [apply Hworker; rewrite Hd; lia|].
  split; [apply Hworker; rewrite Hd; lia|].
  split.
  - apply Hstart.
    + rewrite Hd. lia.
    + vm_compute. lia.
    + split; [vm_compute; discriminate|].
      split; [vm_compute; discriminate|vm_compute; reflexivity].
  - apply (Hsend 8 3100 (lim example_global_429)
             (message_of example_submission_8) []).
    + rewrite Hd. lia.
    + vm_compute. lia.
    + vm_compute. reflexivity.
    + vm_compute. reflexivity.
Defined.

(** A second worker started on channel 7 while the first holds the claim
    does nothing. *)
Lemma worker_mutual_exclusion_witness :
  _process_channel_queue 7 WStart (wake 2000) (lim example_interleaved)
    = ((WDone, []), lim example_interleaved).
Proof.
  destruct (worker_mutual_exclusion example_hash example_events)
    as (_ & Hheld & Hnoop).
  apply Hnoop. apply (Hheld 0%nat 7).
  eexists. split; [vm_compute; reflexivity|reflexivity].
Defined.

(** ** Concrete instances of the further properties *)

Lemma sends_respect_limits_witness :
  within_limits 7 1000 (lim example_dispatched).
Proof.
  apply (sends_respect_limits example_hash (EvResume 0 (wake 1000)) example_dispatched
           7 (message_of (example_submission NORMAL 500)) 1000).
  vm_compute. by left.
Defined.

Lemma sends_take_queue_head_witness :
  ∃ rest,
    queue_of (lim example_dispatched) 7
      = message_of (example_submission NORMAL 500) :: rest ∧
    queue_of (lim (sys_exec example_hash (EvResume 0 (wake 1000))
                     example_dispatched).1) 7 = rest.
Proof.
  apply (sends_take_queue_head example_hash (EvResume 0 (wake 1000))
           example_dispatched 7 (message_of (example_submission NORMAL 500)) 1000).
  vm_compute. by left.
Defined.

Lemma no_leaked_claim_witness :
  ∃ i, holds_claim (sys_run example_hash example_events sys_init).1 i 7.
Proof.
  apply (no_leaked_claim example_hash example_events 7).
  vm_compute. reflexivity.
Defined.

Lemma channel_not_found_clears_queue_witness :
  let r := _process_channel_queue 7 WStart
             {| now := 1000; channel_found := false; result := Sent |}
             (lim example_dispatched) in
  r.1 = (WDone, [LogChannelNotFound 7]) ∧ queue_of r.2 7 = [].
Proof.
  destruct (channel_not_found_clears_queue 7
              {| now := 1000; channel_found := false; result := Sent |}
              (lim example_dispatched)) as (H1 & H2 & _).
  - reflexivity.
  - vm_compute. discriminate.
  - by split.
Defined.

Lemma worker_touches_own_channel_only_witness :
  agree_off 7 (lim example_interleaved)
    (lim (sys_exec example_hash (EvResume 0 (answer Sent 1100)) example_interleaved).1).
Proof.
  apply (worker_touches_own_channel_only example_hash (EvResume 0 (answer Sent 1100))
           example_interleaved 0 7
           (WSend (message_of (example_submission NORMAL 500)) 1000)).
  - vm_compute. reflexivity.
  - left. by eexists.
Defined.

Lemma submission_touches_own_channel_only_witness :
  let s' := (queue_message example_hash 7 example_embed None None NORMAL None
               1000 1000 1000 (lim example_interleaved)).2 in
  channel_queues s' !! 8 = channel_queues (lim example_interleaved) !! 8 ∧
  recent_embeds s' !! 8 = recent_embeds (lim example_interleaved) !! 8.
Proof.
  destruct (submission_touches_own_channel_only example_hash 7 example_embed None None
              NORMAL None 1000 1000 1000 (lim example_interleaved) 8) as (H1 & H2 & _).
  - lia.
  - by split.
Defined.

Lemma channel_window_never_drops_witness :
  has_room 7 (lim example_interleaved).
Proof.
  destruct (channel_window_never_drops example_hash example_events 0 7
              (message_of (example_submission NORMAL 500)) 1000) as [H _].
  - vm_compute. reflexivity.
  - exact H.
Defined.


Lemma purge_window_drops_old_prefix_witness :
  purge_window 6000 5000 [500; 900; 2000] = filter (fun e => 6000 - e <= 5000) [500; 900; 2000].
Proof.
  destruct (purge_window_drops_old_prefix 6000 5000 [500; 900; 2000]) as (_ & _ & H).
  apply H. repeat constructor; lia.
Defined.

Lemma embed_hash_reads_stable_fields_witness :
  _generate_embed_hash example_hash example_embed 1000 =
  _generate_embed_hash example_hash
    {| embed_title := Some "Player killed"; embed_description := Some "A killed B";
       embed_fields := [("Distance", "250m")];
       embed_footer := Some {| footer_text := Some "Server 1" |} |} 2000.
Proof.
  destruct (embed_hash_reads_stable_fields example_hash) as [H _].
  apply H; [reflexivity|discriminate].
Defined.

Lemma stats_are_consistent_witness :
  ∃ p, "NORMAL" = priority_name p.
Proof.
  destruct (stats_are_consistent 2000 (lim example_dispatched)) as (_ & _ & _ & H & _).
  apply H. vm_compute. by eexists.
Defined.

Lemma started_worker_sends_head_witness :
  ∃ m rest s1,
    queue_of (lim (sys_exec example_hash (EvSubmit (example_submission NORMAL 500))
                     sys_init).1) 7 = m :: rest ∧
    _process_channel_queue 7 WStart (wake 1200)
      (_process_queues 1000
         (lim (sys_exec example_hash (EvSubmit (example_submission NORMAL 500))
                 sys_init).1)).2 =
      ((WSend m 1200, [ActSend 7 m 1200]), s1) ∧
    queue_of s1 7 = rest.
Proof.
  apply (started_worker_sends_head 1000 1200
           (lim (sys_exec example_hash (EvSubmit (example_submission NORMAL 500))
                   sys_init).1) 7).
  - vm_compute. apply elem_of_cons. by left.
  - lia.
Defined.

Lemma retried_message_goes_first_witness :
  let m := message_of (example_submission NORMAL 500) in
  let run := worker_run [answer HTTPError 1500; wake 2000] 7 (WSend m 1000)
               (lim example_interleaved) in
  run.1 = (WSend (with_retry_count m 1) 2000,
           [LogSendError; ActSend 7 (with_retry_count m 1) 2000]) ∧
  queue_of run.2 7 = [message_of (example_submission CRITICAL 1500)].
Proof.
  apply (retried_message_goes_first 7 (message_of (example_submission NORMAL 500))
           1000 HTTPError 1500 2000 (lim example_interleaved)).
  - by left.
  - simpl. lia.
  - vm_compute. repeat split; try lia; discriminate.
Defined.

Lemma worker_drains_queue_in_order_witness :
  let s := (submit_all example_hash
              [example_submission NORMAL 500; example_submission CRITICAL 600] init).2 in
  let q := [message_of (example_submission CRITICAL 600);
            message_of (example_submission NORMAL 500)] in
  let r := worker_run (delivery_inputs q [1000; 1200] ++ [wake 1400]) 7 WStart s in
  r.1 = (WDone, delivery_trace 7 q [1000; 1200]) ∧ queue_of r.2 7 = [] ∧
  (7 ∉ processing_channels r.2).
Proof.
  apply (worker_drains_queue_in_order 7
           [message_of (example_submission CRITICAL 600);
            message_of (example_submission NORMAL 500)] [1000; 1200]
           (submit_all example_hash
              [example_submission NORMAL 500; example_submission CRITICAL 600] init).2
           1400).
  - vm_compute. discriminate.
  - vm_compute. reflexivity.
  - reflexivity.
  - simpl. unfold MESSAGE_DELAY. lia.
  - intros t [= <-]. vm_compute. repeat split; try lia; discriminate.
Defined.
